(** * Synaptic-plasticity learning rules of bindsnet/learning/learning.py

    A shallow embedding of the weight-update rules ([LearningRule.update],
    [NoOp], [Hebbian], [PostPre], [MSTDP], [MSTDPET], [Rmax]) and of the
    calibrated lookup of [WeightDependentPostPre].

    Number model.  Tensor entries are real numbers: the algebra of the rules
    (which term is added, which is subtracted, what is decayed by what, what
    is clamped) is stated over [R], so rounding of the machine floats is not
    part of the model.  The quantisation code of [WeightDependentPostPre]
    (Python [round], [int], comparisons against 0 and 120, table indexing)
    is modelled over rationals extended with the two infinities and NaN, and
    computes.

    Tensor model.  A rank-1 tensor is a list, a rank-2 tensor a list of rows,
    a rank-3 tensor a list (over the batch axis) of rank-2 tensors.
    Element-wise operations pair the entries of their operands position by
    position; the operands of every element-wise operation of the source have
    equal shapes in a well-formed call. *)

From Stdlib Require Import String Bool ZArith QArith Qround Qabs Lia Reals Psatz List.
Import ListNotations.

Set Implicit Arguments.

(** ** Tensors over the reals *)

Module Tensor.

Local Open Scope R_scope.

Definition vector := list R.
Definition matrix := list vector.
Definition tensor3 := list matrix.

Fixpoint zip_with {A B C : Type} (f : A -> B -> C) (l1 : list A) (l2 : list B)
  : list C :=
  match l1, l2 with
  | a :: l1', b :: l2' => f a b :: zip_with f l1' l2'
  | _, _ => []
  end.

(** [c * t] with a scalar on the left, [t * c] and [t / c] with a scalar on
    the right. *)
Definition vscale (c : R) (v : vector) : vector := map (fun a => c * a) v.
Definition mscale (c : R) (m : matrix) : matrix := map (vscale c) m.
Definition tscale (c : R) (t : tensor3) : tensor3 := map (mscale c) t.

Definition vmul_scalar (v : vector) (c : R) : vector := map (fun a => a * c) v.
Definition mmul_scalar (m : matrix) (c : R) : matrix :=
  map (fun v => vmul_scalar v c) m.
Definition mdiv_scalar (m : matrix) (c : R) : matrix :=
  map (map (fun a => a / c)) m.

(** Element-wise [+] and [-]. *)
Definition vadd : vector -> vector -> vector := zip_with Rplus.
Definition vsub : vector -> vector -> vector := zip_with Rminus.
Definition madd : matrix -> matrix -> matrix := zip_with vadd.
Definition msub : matrix -> matrix -> matrix := zip_with vsub.
Definition tadd : tensor3 -> tensor3 -> tensor3 := zip_with madd.

(** [torch.zeros]. *)
Definition vzeros (n : nat) : vector := repeat 0 n.
Definition mzeros (n m : nat) : matrix := repeat (vzeros m) n.
Definition tzeros (b n m : nat) : tensor3 := repeat (mzeros n m) b.

(** [w.shape] of a rank-2 tensor. *)
Definition shape (w : matrix) : nat * nat := (length w, length (hd [] w)).

(** [t.unsqueeze(2)] and [t.unsqueeze(1)] of a [batch, n] tensor. *)
Definition unsqueeze2 (t : matrix) : tensor3 := map (map (fun a => [a])) t.
Definition unsqueeze1 (t : matrix) : tensor3 := map (fun v => [v]) t.

(** [t.view(-1)] of a [batch, n] tensor. *)
Definition view_flat (t : matrix) : vector := concat t.

(** Matrix product and [torch.bmm]. *)
Fixpoint dot (u v : vector) : R :=
  match u, v with
  | a :: u', b :: v' => a * b + dot u' v'
  | _, _ => 0
  end.

Definition column (j : nat) (m : matrix) : vector :=
  map (fun row => nth j row 0) m.

Definition matmul (a b : matrix) : matrix :=
  map (fun row => map (fun j => dot row (column j b))
                      (seq 0 (length (hd [] b)))) a.

Definition bmm : tensor3 -> tensor3 -> tensor3 := zip_with matmul.

(** [torch.ger]: the outer product of two vectors. *)
Definition ger (u v : vector) : matrix :=
  map (fun a => map (fun b => a * b) v) u.

(** The batched outer product, one [ger] per sample of the batch. *)
Definition batched_outer : matrix -> matrix -> tensor3 := zip_with ger.

(** [torch.sum(t, dim=0)] and [torch.mean(t, dim=0)], the default
    reduction. *)
Definition sum_dim0 (t : tensor3) : matrix :=
  match t with
  | [] => []
  | m :: t' => fold_left madd t' m
  end.

Definition mean_dim0 (t : tensor3) : matrix :=
  mdiv_scalar (sum_dim0 t) (INR (length t)).

(** Every entry of a rank-2 tensor lies between [lo] and [hi]. *)
Definition within (lo hi : R) (m : matrix) : Prop :=
  Forall (Forall (fun a => lo <= a <= hi)) m.

(** A rank-2 tensor proper: all rows have the length of the first. *)
Definition rectangular (m : matrix) : Prop :=
  Forall (fun row => length row = length (hd [] m)) m.

(** Two rank-2 tensors of one shape. *)
Definition same_shape (a b : matrix) : Prop :=
  Forall2 (fun u v => length u = length v) a b.

(** [v * c[:, None]]: a row vector broadcast against a column vector. *)
Definition mul_row_by_column (v c : vector) : matrix :=
  map (fun ci => map (fun vj => vj * ci) v) c.

(** Python truthiness of a float: every value but zero is true. *)
Definition truthy (a : R) : bool := if Req_dec_T a 0 then false else true.

End Tensor.

Import Tensor.

(** ** Connections, populations and keyword arguments *)

(** [connection.wmin] is minus infinity or a real, [connection.wmax] is plus
    infinity or a real. *)
Inductive lower_bound : Type := NegInf | Lo (r : R).
Inductive upper_bound : Type := PosInf | Hi (r : R).

Record connection : Type := Connection {
  w : matrix;
  wmin : lower_bound;
  wmax : upper_bound;
  dt : R
}.

Definition set_w (c : connection) (w' : matrix) : connection :=
  Connection w' (wmin c) (wmax c) (dt c).

(** A node population: spikes [s], traces [x], firing probabilities
    [s_prob], each of shape [batch_size, n], that is, as
    [view(batch_size, -1)] and [float()] return them. *)
Record nodes : Type := Nodes {
  batch_size : nat;
  n : nat;
  s : matrix;
  x : matrix;
  s_prob : matrix
}.

Inductive rule_class : Type :=
| cls_NoOp | cls_PostPre | cls_WeightDependentPostPre | cls_Hebbian
| cls_MSTDP | cls_MSTDPET | cls_Rmax.

(** The attributes set by the constructors: class, learning rates,
    reduction over the batch axis, weight decay and the time constants of the
    reward-modulated rules. *)
Record rule : Type := Rule {
  cls : rule_class;
  nu : R * R;
  reduction : tensor3 -> matrix;
  weight_decay : R;
  tc_plus : R;
  tc_minus : R;
  tc_e_trace : R;
  tc_c : R
}.

Definition nu0 (r : rule) : R := fst (nu r).
Definition nu1 (r : rule) : R := snd (nu r).

(** [**kwargs] of an update call, with scalar values (a reward is a float
    here, not a tensor), and the exceptions a call can raise. *)
Definition kwargs := list (string * R).

Fixpoint kwargs_find (k : string) (kw : kwargs) : option R :=
  match kw with
  | [] => None
  | (k', v) :: kw' => if String.eqb k k' then Some v else kwargs_find k kw'
  end.

(** [kwargs.get(k, default)]. *)
Definition kwargs_get (k : string) (default : R) (kw : kwargs) : R :=
  match kwargs_find k kw with Some v => v | None => default end.

Inductive exn : Type :=
| KeyError (k : string)
| IndexError
| ValueError
| OverflowError.

(** What one update call sees: the source and target populations as they are
    at this timestep, and the keyword arguments of the call. *)
Record call : Type := Call {
  source : nodes;
  target : nodes;
  kw : kwargs
}.

(** The same call without keyword arguments. *)
Definition without_kwargs (c : call) : call := Call (source c) (target c) [].

(** Every call of the sequence is given a reward. *)
Definition rewarded (calls : list call) : Prop :=
  Forall (fun c => kwargs_find "reward" (kw c) <> None) calls.

(** ** What a constructor is given

    The class of the connection, the capabilities of its two populations and
    its bounds; the learning rates as no value, one number or a pair; the
    reduction or no value. *)
Inductive connection_class : Type :=
| class_Connection
| class_LocalConnection
| class_Conv2dConnection
| class_other.

Record population : Type := Population {
  traces : bool;
  traces_additive : bool;
  isinstance_SRM0Nodes : bool
}.

Record wiring : Type := Wiring {
  class_of : connection_class;
  source_nodes : population;
  target_nodes : population;
  wiring_wmin : lower_bound;
  wiring_wmax : upper_bound
}.

Inductive nu_argument : Type :=
| nu_None
| nu_number (a : R)
| nu_pair (a b : R).

(** What a constructor raises, and the update method it binds. *)
Inductive construction_error : Type :=
| AssertionError (message : string)
| NotImplementedError (message : string)
| FileNotFoundError
| raised (e : exn).

Inductive update_method : Type :=
| class_update
| connection_update_method
| conv2d_connection_update_method.

Definition not_supported : construction_error :=
  NotImplementedError
    "This learning rule is not supported for this Connection type.".

(** A connection of a class that the constructors know. *)
Definition supported (wr : wiring) : Prop := class_of wr <> class_other.

(** A constructor returns. *)
Definition returns {A : Type} (result : construction_error + A) : Prop :=
  exists a, result = inr a.

(** ** Stateful, fallible code

    An update mutates the attributes of the rule and of its connection and
    can raise; what was mutated before an exception stays mutated. *)

Module Py.

Definition M (St A : Type) : Type := St -> (exn + A) * St.

Definition ret {St A : Type} (a : A) : M St A := fun st => (inr a, st).

Definition bind {St A B : Type} (m : M St A) (k : A -> M St B) : M St B :=
  fun st =>
    match m st with
    | (inl e, st') => (inl e, st')
    | (inr a, st') => k a st'
    end.

Definition raise {St A : Type} (e : exn) : M St A := fun st => (inl e, st).

Definition modify {St : Type} (f : St -> St) : M St unit :=
  fun st => (inr tt, f st).

(** [kwargs[k]]. *)
Definition kwargs_item {St : Type} (k : string) (kw : kwargs) : M St R :=
  match kwargs_find k kw with
  | Some v => ret v
  | None => raise (KeyError k)
  end.

(** The states after each call of a sequence of update calls, in order; the
    sequence stops at the first call that raises. *)
Fixpoint run {St : Type} (update : call -> M St unit) (calls : list call)
    (st : St) : list St :=
  match calls with
  | [] => []
  | c :: calls' =>
      match update c st with
      | (inr _, st') => st' :: run update calls' st'
      | (inl _, _) => []
      end
  end.

End Py.

Declare Scope py_scope.
Delimit Scope py_scope with py.
Notation "x <- c1 ;; c2" := (Py.bind c1 (fun x => c2))
  (at level 61, c1 at next level, right associativity) : py_scope.
Notation "c1 ;; c2" := (Py.bind c1 (fun _ => c2))
  (at level 61, right associativity) : py_scope.

(** ** LearningRule.update: weight decay, then the bounds *)

Module LearningRule.

Local Open Scope R_scope.

Definition isinstance_NoOp (r : rule) : bool :=
  match cls r with cls_NoOp => true | _ => false end.

Definition is_neg_inf (b : lower_bound) : bool :=
  match b with NegInf => true | Lo _ => false end.

Definition is_pos_inf (b : upper_bound) : bool :=
  match b with PosInf => true | Hi _ => false end.

(** [torch.clamp]: [min(max(a, lo), hi)]; an infinite bound leaves its side
    open. *)
Definition clamp1 (lo : lower_bound) (hi : upper_bound) (a : R) : R :=
  let a1 := match lo with NegInf => a | Lo l => Rmax a l end in
  match hi with PosInf => a1 | Hi h => Rmin a1 h end.

Definition clamp_ (lo : lower_bound) (hi : upper_bound) (m : matrix) : matrix :=
  map (map (clamp1 lo hi)) m.

Definition update (r : rule) (c : connection) : connection :=
  (* Implement weight decay. *)
  let c1 :=
    if truthy (weight_decay r)
    then set_w c (msub (w c) (mscale (weight_decay r) (w c)))
    else c in
  (* Bound weights. *)
  if (negb (is_neg_inf (wmin c1)) || negb (is_pos_inf (wmax c1)))
     && negb (isinstance_NoOp r)
  then set_w c1 (clamp_ (wmin c1) (wmax c1) (w c1))
  else c1.

(** The shared step as the specification words it: the clamp is skipped
    whenever either bound is infinite, or the rule is NoOp. *)
Definition spec_update (r : rule) (c : connection) : connection :=
  let decayed := mscale (1 - weight_decay r) (w c) in
  if is_neg_inf (wmin c) || is_pos_inf (wmax c) || isinstance_NoOp r
  then set_w c decayed
  else set_w c (clamp_ (wmin c) (wmax c) decayed).

(** [LearningRule.__init__]: a missing [nu] is [0.0, 0.0], a number is
    taken for both rates, a missing reduction is the mean.  The time
    constants are the ones that the constructors of the reward-modulated
    rules read from their keyword arguments. *)
Definition init (class : rule_class) (nu : nu_argument)
    (reduction : option (tensor3 -> matrix)) (weight_decay : R)
    (kw : kwargs) : rule :=
  Rule class
    match nu with
    | nu_None => (0, 0)
    | nu_number a => (a, a)
    | nu_pair a b => (a, b)
    end
    match reduction with
    | None => mean_dim0
    | Some f => f
    end
    weight_decay
    (kwargs_get "tc_plus" 20 kw)
    (kwargs_get "tc_minus" 20 kw)
    (kwargs_get "tc_e_trace" 25 kw)
    (kwargs_get "tc_c" 5 kw).

(** The choice between the two update methods that most constructors end
    with. *)
Definition bind_update (wr : wiring) (r : rule)
  : construction_error + rule * update_method :=
  match class_of wr with
  | class_Connection | class_LocalConnection =>
      inr (r, connection_update_method)
  | class_Conv2dConnection => inr (r, conv2d_connection_update_method)
  | class_other => inl not_supported
  end.

End LearningRule.

(** ** NoOp *)

Module NoOp.

Definition update (r : rule) (c : call) (cn : connection) : connection :=
  LearningRule.update r cn.

Definition init (wr : wiring) (nu : nu_argument)
    (reduction : option (tensor3 -> matrix)) (weight_decay : R)
    (kw : kwargs) : construction_error + rule * update_method :=
  inr (LearningRule.init cls_NoOp nu reduction weight_decay kw, class_update).

End NoOp.

(** ** PostPre *)

Module PostPre.

Local Open Scope R_scope.

Definition connection_update (r : rule) (c : call) (cn : connection)
  : connection :=
  let source_s := unsqueeze2 (s (source c)) in
  let source_x := unsqueeze2 (x (source c)) in
  let target_s := unsqueeze1 (s (target c)) in
  let target_x := unsqueeze1 (x (target c)) in
  (* Pre-synaptic update. *)
  let cn1 :=
    if truthy (nu0 r)
    then let update := reduction r (bmm source_s target_x) in
         set_w cn (msub (w cn) (mscale (nu0 r) update))
    else cn in
  (* Post-synaptic update. *)
  let cn2 :=
    if truthy (nu1 r)
    then let update := reduction r (bmm source_x target_s) in
         set_w cn1 (madd (w cn1) (mscale (nu1 r) update))
    else cn1 in
  LearningRule.update r cn2.

(** The PostPre rule with the first learning rate of a Hebbian rule
    negated. *)
Definition postpre_twin (r : rule) : rule :=
  Rule cls_PostPre (- nu0 r, nu1 r) (reduction r) (weight_decay r)
       (tc_plus r) (tc_minus r) (tc_e_trace r) (tc_c r).

Definition init (wr : wiring) (nu : nu_argument)
    (reduction : option (tensor3 -> matrix)) (weight_decay : R)
    (kw : kwargs) : construction_error + rule * update_method :=
  let r := LearningRule.init cls_PostPre nu reduction weight_decay kw in
  if traces (source_nodes wr) && traces (target_nodes wr)
  then LearningRule.bind_update wr r
  else inl (AssertionError
              "Both pre- and post-synaptic nodes must record spike traces.").

End PostPre.

(** ** Hebbian *)

Module Hebbian.

Local Open Scope R_scope.

Definition connection_update (r : rule) (c : call) (cn : connection)
  : connection :=
  let source_s := unsqueeze2 (s (source c)) in
  let source_x := unsqueeze2 (x (source c)) in
  let target_s := unsqueeze1 (s (target c)) in
  let target_x := unsqueeze1 (x (target c)) in
  (* Pre-synaptic update. *)
  let update := reduction r (bmm source_s target_x) in
  let cn1 := set_w cn (madd (w cn) (mscale (nu0 r) update)) in
  (* Post-synaptic update. *)
  let update := reduction r (bmm source_x target_s) in
  let cn2 := set_w cn1 (madd (w cn1) (mscale (nu1 r) update)) in
  LearningRule.update r cn2.

Definition init (wr : wiring) (nu : nu_argument)
    (reduction : option (tensor3 -> matrix)) (weight_decay : R)
    (kw : kwargs) : construction_error + rule * update_method :=
  let r := LearningRule.init cls_Hebbian nu reduction weight_decay kw in
  if traces (source_nodes wr) && traces (target_nodes wr)
  then LearningRule.bind_update wr r
  else inl (AssertionError
              "Both pre- and post-synaptic nodes must record spike traces.").

End Hebbian.

(** ** MSTDP *)

Module MSTDP.

Local Open Scope R_scope.
Local Open Scope py_scope.

(** The connection and the attributes [p_plus], [p_minus], [eligibility] of
    the rule object; an attribute not yet set is [None]. *)
Record state : Type := State {
  conn : connection;
  p_plus : option matrix;
  p_minus : option matrix;
  eligibility : option tensor3
}.

Definition set_conn (st : state) (cn : connection) : state :=
  State cn (p_plus st) (p_minus st) (eligibility st).
Definition set_p_plus (st : state) (p : matrix) : state :=
  State (conn st) (Some p) (p_minus st) (eligibility st).
Definition set_p_minus (st : state) (p : matrix) : state :=
  State (conn st) (p_plus st) (Some p) (eligibility st).
Definition set_eligibility (st : state) (e : tensor3) : state :=
  State (conn st) (p_plus st) (p_minus st) (Some e).

(** Reading an attribute that the initialisation has just set. *)
Definition attr {A : Type} (a : option A) (unset : A) : A :=
  match a with Some v => v | None => unset end.

Definition connection_update (r : rule) (c : call) : Py.M state unit :=
  let batch_size := batch_size (source c) in
  (* Initialize eligibility, P^+, and P^-. *)
  Py.modify (fun st =>
    match p_plus st with
    | None => set_p_plus st (mzeros batch_size (n (source c)))
    | Some _ => st
    end) ;;
  Py.modify (fun st =>
    match p_minus st with
    | None => set_p_minus st (mzeros batch_size (n (target c)))
    | Some _ => st
    end) ;;
  Py.modify (fun st =>
    match eligibility st with
    | None =>
        let '(rows, cols) := shape (w (conn st)) in
        set_eligibility st (tzeros batch_size rows cols)
    | Some _ => st
    end) ;;
  (* Reshape pre- and post-synaptic spikes. *)
  let source_s := s (source c) in
  let target_s := s (target c) in
  (* Parse keyword arguments. *)
  reward <- Py.kwargs_item "reward" (kw c) ;;
  let a_plus := kwargs_get "a_plus" 1 (kw c) in
  let a_minus := kwargs_get "a_minus" (-1) (kw c) in
  (* Compute weight update based on the point eligibility value of the past
     timestep. *)
  Py.modify (fun st =>
    let update := tscale reward (attr (eligibility st) []) in
    set_conn st
      (set_w (conn st)
         (madd (w (conn st)) (mscale (nu0 r) (reduction r update))))) ;;
  (* Update P^+ and P^- values. *)
  Py.modify (fun st =>
    set_p_plus st
      (mmul_scalar (attr (p_plus st) []) (exp (- dt (conn st) / tc_plus r)))) ;;
  Py.modify (fun st =>
    set_p_plus st (madd (attr (p_plus st) []) (mscale a_plus source_s))) ;;
  Py.modify (fun st =>
    set_p_minus st
      (mmul_scalar (attr (p_minus st) []) (exp (- dt (conn st) / tc_minus r)))) ;;
  Py.modify (fun st =>
    set_p_minus st (madd (attr (p_minus st) []) (mscale a_minus target_s))) ;;
  (* Calculate point eligibility value. *)
  Py.modify (fun st =>
    set_eligibility st
      (tadd (bmm (unsqueeze2 (attr (p_plus st) [])) (unsqueeze1 target_s))
            (bmm (unsqueeze2 source_s) (unsqueeze1 (attr (p_minus st) []))))) ;;
  Py.modify (fun st => set_conn st (LearningRule.update r (conn st))).

(** A rule object on which no update has run yet. *)
Definition fresh (cn : connection) : state := State cn None None None.

(** The point eligibility of a call, from the spikes of the call and the
    values of [p_plus] and [p_minus] that the call leaves in [st]:
    [outer(p_plus, post_spike) + outer(pre_spike, p_minus)]. *)
Definition point_eligibility (c : call) (st : state) : tensor3 :=
  tadd (batched_outer (attr (p_plus st) []) (s (target c)))
       (batched_outer (s (source c)) (attr (p_minus st) [])).

(** [nu[0] * reduce(reward * eligibility)]. *)
Definition weight_change (r : rule) (reward : R) (e : tensor3) : matrix :=
  mscale (nu0 r) (reduction r (tscale reward e)).

(** All zeros, of shape [batch, *w.shape]. *)
Definition zero_eligibility (c : call) (cn : connection) : tensor3 :=
  tzeros (batch_size (source c)) (fst (shape (w cn))) (snd (shape (w cn))).

Definition run (r : rule) : list call -> state -> list state :=
  Py.run (connection_update r).

(** The eligibility a call finds: what the previous call left, zeros on the
    first call. *)
Definition found_eligibility (c : call) (st : state) : tensor3 :=
  match eligibility st with
  | Some e => e
  | None => zero_eligibility c (conn st)
  end.

(** The connection a call leaves, from the state it finds and its reward
    alone. *)
Definition connection_after (r : rule) (c : call) (reward : R)
    (st : state) : connection :=
  LearningRule.update r
    (set_w (conn st)
       (madd (w (conn st))
             (weight_change r reward (found_eligibility c st)))).

(** Runs the statements of an update on a state whose attributes are known
    to be set or unset. *)
Ltac exec :=
  cbv beta iota zeta delta
    [Py.bind Py.modify Py.ret Py.raise fst snd shape attr
     set_conn set_p_plus set_p_minus set_eligibility
     conn p_plus p_minus eligibility].

Definition init (wr : wiring) (nu : nu_argument)
    (reduction : option (tensor3 -> matrix)) (weight_decay : R)
    (kw : kwargs) : construction_error + rule * update_method :=
  LearningRule.bind_update wr
    (LearningRule.init cls_MSTDP nu reduction weight_decay kw).

End MSTDP.

(** ** MSTDPET *)

Module MSTDPET.

Local Open Scope R_scope.
Local Open Scope py_scope.

Record state : Type := State {
  conn : connection;
  p_plus : option vector;
  p_minus : option vector;
  eligibility : option matrix;
  eligibility_trace : option matrix
}.

Definition set_conn (st : state) (cn : connection) : state :=
  State cn (p_plus st) (p_minus st) (eligibility st) (eligibility_trace st).
Definition set_p_plus (st : state) (p : vector) : state :=
  State (conn st) (Some p) (p_minus st) (eligibility st) (eligibility_trace st).
Definition set_p_minus (st : state) (p : vector) : state :=
  State (conn st) (p_plus st) (Some p) (eligibility st) (eligibility_trace st).
Definition set_eligibility (st : state) (e : matrix) : state :=
  State (conn st) (p_plus st) (p_minus st) (Some e) (eligibility_trace st).
Definition set_eligibility_trace (st : state) (e : matrix) : state :=
  State (conn st) (p_plus st) (p_minus st) (eligibility st) (Some e).

Definition attr {A : Type} (a : option A) (unset : A) : A :=
  match a with Some v => v | None => unset end.

Definition connection_update (r : rule) (c : call) : Py.M state unit :=
  (* Initialize eligibility, eligibility trace, P^+, and P^-. *)
  Py.modify (fun st =>
    match p_plus st with
    | None => set_p_plus st (vzeros (n (source c)))
    | Some _ => st
    end) ;;
  Py.modify (fun st =>
    match p_minus st with
    | None => set_p_minus st (vzeros (n (target c)))
    | Some _ => st
    end) ;;
  Py.modify (fun st =>
    match eligibility st with
    | None =>
        let '(rows, cols) := shape (w (conn st)) in
        set_eligibility st (mzeros rows cols)
    | Some _ => st
    end) ;;
  Py.modify (fun st =>
    match eligibility_trace st with
    | None =>
        let '(rows, cols) := shape (w (conn st)) in
        set_eligibility_trace st (mzeros rows cols)
    | Some _ => st
    end) ;;
  (* Reshape pre- and post-synaptic spikes. *)
  let source_s := view_flat (s (source c)) in
  let target_s := view_flat (s (target c)) in
  (* Parse keyword arguments. *)
  reward <- Py.kwargs_item "reward" (kw c) ;;
  let a_plus := kwargs_get "a_plus" 1 (kw c) in
  let a_minus := kwargs_get "a_minus" (-1) (kw c) in
  (* Calculate value of eligibility trace based on the value of the point
     eligibility value of the past timestep. *)
  Py.modify (fun st =>
    set_eligibility_trace st
      (mmul_scalar (attr (eligibility_trace st) [])
                   (exp (- dt (conn st) / tc_e_trace r)))) ;;
  Py.modify (fun st =>
    set_eligibility_trace st
      (madd (attr (eligibility_trace st) [])
            (mdiv_scalar (attr (eligibility st) []) (tc_e_trace r)))) ;;
  (* Compute weight update. *)
  Py.modify (fun st =>
    set_conn st
      (set_w (conn st)
         (madd (w (conn st))
               (mscale (nu0 r * dt (conn st) * reward)
                       (attr (eligibility_trace st) []))))) ;;
  (* Update P^+ and P^- values. *)
  Py.modify (fun st =>
    set_p_plus st
      (vmul_scalar (attr (p_plus st) []) (exp (- dt (conn st) / tc_plus r)))) ;;
  Py.modify (fun st =>
    set_p_plus st (vadd (attr (p_plus st) []) (vscale a_plus source_s))) ;;
  Py.modify (fun st =>
    set_p_minus st
      (vmul_scalar (attr (p_minus st) []) (exp (- dt (conn st) / tc_minus r)))) ;;
  Py.modify (fun st =>
    set_p_minus st (vadd (attr (p_minus st) []) (vscale a_minus target_s))) ;;
  (* Calculate point eligibility value. *)
  Py.modify (fun st =>
    set_eligibility st
      (madd (ger (attr (p_plus st) []) target_s)
            (ger source_s (attr (p_minus st) [])))) ;;
  Py.modify (fun st => set_conn st (LearningRule.update r (conn st))).

Definition fresh (cn : connection) : state := State cn None None None None.

(** The point eligibility of a call, from the spikes of the call and the
    values of [p_plus] and [p_minus] that the call leaves in [st]. *)
Definition point_eligibility (c : call) (st : state) : matrix :=
  madd (ger (attr (p_plus st) []) (view_flat (s (target c))))
       (ger (view_flat (s (source c))) (attr (p_minus st) [])).

(** One step of the filter of the specification: the trace decayed by
    [exp(-dt / tc_e_trace)] plus the eligibility with gain
    [1 / tc_e_trace]. *)
Definition filter_step (r : rule) (cn : connection) (trace e : matrix) : matrix :=
  madd (mscale (exp (- dt cn / tc_e_trace r)) trace)
       (mscale (1 / tc_e_trace r) e).

(** All zeros, of the shape of [w]. *)
Definition zero_like (cn : connection) : matrix :=
  mzeros (fst (shape (w cn))) (snd (shape (w cn))).

Definition run (r : rule) : list call -> state -> list state :=
  Py.run (connection_update r).

(** The trace and the point eligibility a call finds: what the previous call
    left, zeros on the first call. *)
Definition found_trace (st : state) : matrix :=
  match eligibility_trace st with
  | Some t => t
  | None => zero_like (conn st)
  end.

Definition found_eligibility (st : state) : matrix :=
  match eligibility st with
  | Some e => e
  | None => zero_like (conn st)
  end.

(** Runs the statements of an update on a state whose attributes are known
    to be set or unset. *)
Ltac exec :=
  cbv beta iota zeta delta
    [Py.bind Py.modify Py.ret Py.raise fst snd shape attr
     set_conn set_p_plus set_p_minus set_eligibility set_eligibility_trace
     conn p_plus p_minus eligibility eligibility_trace].

Definition init (wr : wiring) (nu : nu_argument)
    (reduction : option (tensor3 -> matrix)) (weight_decay : R)
    (kw : kwargs) : construction_error + rule * update_method :=
  LearningRule.bind_update wr
    (LearningRule.init cls_MSTDPET nu reduction weight_decay kw).

End MSTDPET.

(** ** Rmax *)

Module Rmax.

Local Open Scope R_scope.
Local Open Scope py_scope.

Record state : Type := State {
  conn : connection;
  eligibility_trace : option matrix
}.

Definition set_conn (st : state) (cn : connection) : state :=
  State cn (eligibility_trace st).
Definition set_eligibility_trace (st : state) (e : matrix) : state :=
  State (conn st) (Some e).

Definition attr {A : Type} (a : option A) (unset : A) : A :=
  match a with Some v => v | None => unset end.

Definition connection_update (r : rule) (c : call) : Py.M state unit :=
  (* Initialize eligibility trace. *)
  Py.modify (fun st =>
    match eligibility_trace st with
    | None =>
        let '(rows, cols) := shape (w (conn st)) in
        set_eligibility_trace st (mzeros rows cols)
    | Some _ => st
    end) ;;
  (* Reshape variables. *)
  let target_s := view_flat (s (target c)) in
  let target_s_prob := view_flat (s_prob (target c)) in
  let source_x := view_flat (x (source c)) in
  (* Parse keyword arguments. *)
  reward <- Py.kwargs_item "reward" (kw c) ;;
  (* New eligibility trace. *)
  Py.modify (fun st =>
    set_eligibility_trace st
      (mmul_scalar (attr (eligibility_trace st) [])
                   (1 - dt (conn st) / tc_e_trace r))) ;;
  Py.modify (fun st =>
    set_eligibility_trace st
      (madd (attr (eligibility_trace st) [])
            (mul_row_by_column
               (vsub target_s
                     (zip_with Rdiv target_s_prob
                        (map (fun p => 1 + tc_c r / dt (conn st) * p)
                             target_s_prob)))
               source_x))) ;;
  (* Compute weight update. *)
  Py.modify (fun st =>
    set_conn st
      (set_w (conn st)
         (madd (w (conn st))
               (mscale (nu0 r * reward) (attr (eligibility_trace st) []))))) ;;
  Py.modify (fun st => set_conn st (LearningRule.update r (conn st))).

(** The increment of the eligibility trace as the specification words it:
    the outer product of [pre_trace] with
    [post_spike - post_spike_prob / (1 + (tc_c / dt) * post_spike_prob)]. *)
Definition bias_corrected (r : rule) (cn : connection)
    (post_spike post_spike_prob : vector) : vector :=
  zip_with (fun sp p => sp - p / (1 + tc_c r / dt cn * p))
           post_spike post_spike_prob.

Definition zero_like (cn : connection) : matrix :=
  mzeros (fst (shape (w cn))) (snd (shape (w cn))).

(** The trace a call finds: what the previous call left, zeros on the first
    call. *)
Definition found_trace (st : state) : matrix :=
  match eligibility_trace st with
  | Some t => t
  | None => zero_like (conn st)
  end.

(** Runs the statements of an update on a state whose attributes are known
    to be set or unset. *)
Ltac exec :=
  cbv beta iota zeta delta
    [Py.bind Py.modify Py.ret Py.raise fst snd shape attr
     set_conn set_eligibility_trace conn eligibility_trace].

Definition init (wr : wiring) (nu : nu_argument)
    (reduction : option (tensor3 -> matrix)) (weight_decay : R)
    (kw : kwargs) : construction_error + rule * update_method :=
  let r := LearningRule.init cls_Rmax nu reduction weight_decay kw in
  (* Trace is needed for computing epsilon. *)
  if negb (traces (source_nodes wr) && traces_additive (source_nodes wr))
  then inl (AssertionError
              "Pre-synaptic nodes should keep track of their firing trace in an additive way.")
  (* Derivation of R-max depends on stochastic SRM neurons! *)
  else if negb (isinstance_SRM0Nodes (target_nodes wr))
  then inl (AssertionError
              "R-max needs stochastically firing neurons, use SRM0Nodes.")
  else
    match class_of wr with
    | class_Connection | class_LocalConnection =>
        inr (r, connection_update_method)
    | class_Conv2dConnection | class_other => inl not_supported
    end.

End Rmax.

(** ** WeightDependentPostPre: the calibrated lookup *)

Module WeightDependentPostPre.

Local Open Scope Z_scope.
Local Open Scope Q_scope.

(** A float: a rational, an infinity or NaN. *)
Inductive pyfloat : Type :=
| Fin (q : Q)
| PInf
| NInf
| NaN.

Definition fmatrix := list (list pyfloat).

(** Comparison of a float with a finite constant; NaN compares false. *)
Definition fgt (a : pyfloat) (c : Q) : bool :=
  match a with
  | Fin q => negb (Qle_bool q c)
  | PInf => true
  | NInf => false
  | NaN => false
  end.

Definition flt (a : pyfloat) (c : Q) : bool :=
  match a with
  | Fin q => negb (Qle_bool c q)
  | PInf => false
  | NInf => true
  | NaN => false
  end.

Definition fneg (a : pyfloat) : pyfloat :=
  match a with
  | Fin q => Fin (- q)
  | PInf => NInf
  | NInf => PInf
  | NaN => NaN
  end.

(** [a + c], [a * c] and [a / c] for a finite constant [c]. *)
Definition fadd (a : pyfloat) (c : Q) : pyfloat :=
  match a with
  | Fin q => Fin (q + c)
  | other => other
  end.

Definition signed_inf (positive : bool) : pyfloat :=
  if positive then PInf else NInf.

Definition fmul (a : pyfloat) (c : Q) : pyfloat :=
  match a with
  | Fin q => Fin (q * c)
  | NaN => NaN
  | PInf =>
      if Qeq_bool c 0 then NaN else signed_inf (negb (Qle_bool c 0))
  | NInf =>
      if Qeq_bool c 0 then NaN else signed_inf (Qle_bool c 0)
  end.

Definition fdiv (a : pyfloat) (c : Q) : pyfloat :=
  match a with
  | Fin q =>
      if Qeq_bool c 0
      then (if Qeq_bool q 0 then NaN else signed_inf (negb (Qle_bool q 0)))
      else Fin (q / c)
  | NaN => NaN
  | PInf => signed_inf (Qle_bool 0 c)
  | NInf => signed_inf (negb (Qle_bool 0 c))
  end.

(** Exceptions without state. *)
Definition ebind {A B : Type} (m : exn + A) (k : A -> exn + B) : exn + B :=
  match m with
  | inl e => inl e
  | inr a => k a
  end.

Notation "x <-- c1 ;; c2" := (ebind c1 (fun x => c2))
  (at level 61, c1 at next level, right associativity).

(** Python [round] of a float to an integer: to the nearest, ties to the even
    neighbour. *)
Definition round_half_even (q : Q) : Z :=
  let f := Qfloor q in
  match ((q - inject_Z f) ?= (1 # 2))%Q with
  | Lt => f
  | Gt => (f + 1)%Z
  | Eq => if Z.even f then f else (f + 1)%Z
  end.

Definition py_round (a : pyfloat) : exn + Z :=
  match a with
  | Fin q => inr (round_half_even q)
  | PInf | NInf => inl OverflowError
  | NaN => inl ValueError
  end.

(** Python [int] of a float: truncation towards zero. *)
Definition truncate (q : Q) : Z :=
  if Qle_bool 0%Q q then Qfloor q else Qceiling q.

Definition py_int (a : pyfloat) : exn + Z :=
  match a with
  | Fin q => inr (truncate q)
  | PInf | NInf => inl OverflowError
  | NaN => inl ValueError
  end.

(** [t[i]] for an integer [i]: a negative index counts from the end. *)
Definition tensor_index {A : Type} (t : list A) (i : Z) : exn + A :=
  let size := Z.of_nat (List.length t) in
  let j := if (i <? 0)%Z then (i + size)%Z else i in
  if ((0 <=? j)%Z && (j <? size)%Z)%bool
  then match nth_error t (Z.to_nat j) with
       | Some a => inr a
       | None => inl IndexError
       end
  else inl IndexError.

(** The body of the loops of [round_to_percent], after the division by
    [nu[0]] and the multiplication by 100. *)
Definition round_entry (a : pyfloat) : exn + pyfloat :=
  z <-- py_round a ;;
  let a := Fin (inject_Z z) in
  inr (if flt a 0 then fneg a else a).

Fixpoint for_each {A B : Type} (f : A -> exn + B) (l : list A)
  : exn + list B :=
  match l with
  | [] => inr []
  | a :: l' => b <-- f a ;; bs <-- for_each f l' ;; inr (b :: bs)
  end.

Definition round_to_percent (nu0 : Q) (tensor : fmatrix) : exn + fmatrix :=
  let tensor := map (map (fun a => fdiv a nu0)) tensor in
  let tensor := map (map (fun a => fmul a 100)) tensor in
  for_each (for_each round_entry) tensor.

(** The body of the loops of [delta_w_custom] at one synapse: the guard on
    the second index, then the read of the table. *)
Definition guard (second_index : pyfloat) : pyfloat :=
  if (fgt second_index 120 || flt second_index 0)%bool
  then Fin 0
  else second_index.

Definition lookup (STDP_base : list (list Q)) (first_index second_index : pyfloat)
  : exn + Q :=
  let second_index := guard second_index in
  i <-- py_int first_index ;;
  row <-- tensor_index STDP_base i ;;
  k <-- py_int second_index ;;
  tensor_index row k.

(** The loop over [k]: the cells of one row of [first_index] are read
    together with the cells of [second_index] and written into [delta]; a
    row of [second_index] shorter than the row of [first_index] is an
    index error. *)
Fixpoint delta_w_custom_row (STDP_base : list (list Q))
    (first_index second_index delta : list pyfloat) : exn + list pyfloat :=
  match first_index with
  | [] => inr delta
  | fi :: first_index' =>
      match second_index, delta with
      | si :: second_index', _ :: delta' =>
          v <-- lookup STDP_base fi si ;;
          rest <-- delta_w_custom_row STDP_base first_index' second_index' delta' ;;
          inr (Fin v :: rest)
      | _, _ => inl IndexError
      end
  end.

Fixpoint delta_w_custom_rows (STDP_base : list (list Q))
    (first_index second_index delta : fmatrix) : exn + fmatrix :=
  match first_index with
  | [] => inr delta
  | fr :: first_index' =>
      match second_index, delta with
      | sr :: second_index', dr :: delta' =>
          row <-- delta_w_custom_row STDP_base fr sr dr ;;
          rest <-- delta_w_custom_rows STDP_base first_index' second_index' delta' ;;
          inr (row :: rest)
      | _, _ => inl IndexError
      end
  end.

Definition delta_w_custom (STDP_base : list (list Q)) (nu0 : Q)
    (w delta : fmatrix) : exn + fmatrix :=
  first_index <-- round_to_percent nu0 w ;;
  let second_index := map (map (fun d => fadd d 60)) delta in
  delta_w_custom_rows STDP_base first_index second_index delta.

(** The table filled by the constructor has 101 rows of 120 entries. *)
Definition table_shape (STDP_base : list (list Q)) : Prop :=
  List.length STDP_base = 101%nat /\
  Forall (fun row => List.length row = 120%nat) STDP_base.

(** The pair of integers with which [delta_w_custom] subscripts the table
    at a synapse of weight [wv] and transformed trace product [dv]. *)
Definition row_index (nu0 : Q) (wv : pyfloat) : exn + Z :=
  a <-- round_entry (fmul (fdiv wv nu0) 100) ;; py_int a.

Definition column_index (dv : pyfloat) : exn + Z :=
  py_int (guard (fadd dv 60)).

Definition in_table (i k : Z) : Prop :=
  (0 <= i <= 100)%Z /\ (0 <= k <= 119)%Z.

(** A second index outside of [0, 120]. *)
Definition outside_0_120 (second_index : pyfloat) : Prop :=
  match second_index with
  | Fin q => q < 0 \/ 120 < q
  | PInf | NInf => True
  | NaN => False
  end.

(** [torch.zeros([101, 120])], the table before the file is read into it. *)
Definition zeros_101_120 : list (list Q) := repeat (repeat 0 120%nat) 101%nat.

(** A table of 101 by 120 entries that are all different, [1000 * i + k] at
    row [i] and column [k]: a calibration file on which a read shows the
    pair of indices that it used. *)
Definition numbered_table : list (list Q) :=
  map (fun i => map (fun k => inject_Z (Z.of_nat (1000 * i + k))) (seq 0 120))
      (seq 0 101).

(** Every synapse of a call reads inside of the table: [w] and [delta] have
    one shape, and at every position the pair of indices is in range. *)
Definition reads_in_table (nu0 : Q) (w delta : fmatrix) : Prop :=
  Forall2
    (Forall2 (fun wv dv =>
       exists i k,
         row_index nu0 wv = inr i /\ column_index dv = inr k /\ in_table i k))
    w delta.

(** The resistance model of the synapse: conductance changes [G_neg] and
    [G_pos], the offsets [c_neg] and [c_pos], and the two conversions between
    a resistance and a weight. *)
Definition G_neg (resistance g_neg G_0_neg R_G_neg : R) : R :=
  (G_0_neg * (g_neg + exp (- resistance / R_G_neg)))%R.

Definition G_pos (resistance g_pos G_0_pos R_G_pos : R) : R :=
  (G_0_pos * (g_pos + resistance * exp (- resistance / R_G_pos)))%R.

Definition c_neg (resistance c_c_neg a_0_neg R_c_neg : R) : R := 0%R.

Definition c_pos (resistance c_c_pos a_0_pos R_c_pos : R) : R := 0%R.

Definition Ohm_to_weight (Ohm Ohm_min Ohm_max : R) : R :=
  (let weight := 1 / Ohm in
   (weight - 1 / Ohm_max) / (1 / Ohm_min - 1 / Ohm_max))%R.

Definition weight_to_Ohm (weight Ohm_min Ohm_max : R) : R :=
  (1 / (weight * (1 / Ohm_min - 1 / Ohm_max) + 1 / Ohm_max))%R.

(** The values that the signatures give to the parameters left out. *)
Definition G_neg_default (resistance : R) : R :=
  G_neg resistance 0.137%R (-3.5)%R 1230%R.
Definition G_pos_default (resistance : R) : R :=
  G_pos resistance 23.2%R 0.046%R 790%R.
Definition Ohm_min_default : R := 1000%R.
Definition Ohm_max_default : R := 10000%R.

(** The constructor reads the table from a text file, line [i] of the file
    into row [i] of a table of zeros, number [k] of the line into entry [k].
    A file is the list of its lines, a line the list of its numbers. *)
Fixpoint replace_nth {A : Type} (l : list A) (k : nat) (a : A) : list A :=
  match l, k with
  | [], _ => []
  | _ :: l', O => a :: l'
  | b :: l', S k' => b :: replace_nth l' k' a
  end.

Fixpoint read_line (row : list Q) (k : nat) (line : list Q)
  : exn + list Q :=
  match line with
  | [] => inr row
  | sym :: line' =>
      if (k <? List.length row)%nat
      then read_line (replace_nth row k sym) (S k) line'
      else inl IndexError
  end.

Fixpoint read_lines (STDP_base : list (list Q)) (i : nat)
    (lines : list (list Q)) : exn + list (list Q) :=
  match lines with
  | [] => inr STDP_base
  | [] :: lines' => read_lines STDP_base (S i) lines'
  | line :: lines' =>
      match nth_error STDP_base i with
      | None => inl IndexError
      | Some row =>
          row' <-- read_line row 0 line ;;
          read_lines (replace_nth STDP_base i row') (S i) lines'
      end
  end.

Definition read_STDP_base (lines : list (list Q)) : exn + list (list Q) :=
  read_lines zeros_101_120 0 lines.

(** A file that the constructor can read: no line has more numbers than its
    row has entries, and a line past the last row is blank. *)
Fixpoint loadable (rows : list (list Q)) (lines : list (list Q)) : bool :=
  match lines with
  | [] => true
  | [] :: lines' => loadable (tl rows) lines'
  | line :: lines' =>
      match rows with
      | [] => false
      | row :: rows' =>
          (List.length line <=? List.length row)%nat && loadable rows' lines'
      end
  end.

(** A file fits the rows of a table: none of its lines over a row is longer
    than the row, and its lines past the last row are blank. *)
Definition fits (cols rows : nat) (lines : list (list Q)) : Prop :=
  Forall (fun line => (List.length line <= cols)%nat) (firstn rows lines) /\
  Forall (fun line => line = []) (skipn rows lines).

(** The rows of a table with the lines of a file written over them, each
    line over the start of its row. *)
Fixpoint overlay (rows : list (list Q)) (lines : list (list Q))
  : list (list Q) :=
  match rows, lines with
  | row :: rows', line :: lines' =>
      (line ++ skipn (List.length line) row) :: overlay rows' lines'
  | _, _ => rows
  end.

(** What the constructor of the rule builds: the attributes of every rule,
    the two trace time constants, the decay on post-synaptic spikes and the
    table. *)
Record calibrated_rule : Type := CalibratedRule {
  base : rule;
  post_spike_weight_decay : R;
  tc_trace : R;
  tc_trace_neg : R;
  STDP_base_of : list (list Q)
}.

Definition init (wr : wiring) (nu : nu_argument)
    (reduction : option (tensor3 -> matrix))
    (weight_decay post_spike_weight_decay tc_trace tc_trace_neg : R)
    (file : option (list (list Q))) (kw : kwargs)
  : construction_error + calibrated_rule * update_method :=
  let r :=
    LearningRule.init cls_WeightDependentPostPre nu reduction weight_decay kw in
  match file with
  | None => inl FileNotFoundError
  | Some lines =>
      match read_STDP_base lines with
      | inl e => inl (raised e)
      | inr STDP_base =>
          if negb (traces (source_nodes wr))
          then inl (AssertionError
                      "Pre-synaptic nodes must record spike traces.")
          else if LearningRule.is_neg_inf (wiring_wmin wr)
                  || LearningRule.is_pos_inf (wiring_wmax wr)
          then inl (AssertionError
                      "Connection must define finite wmin and wmax.")
          else
            match LearningRule.bind_update wr r with
            | inl e => inl e
            | inr (r', method) =>
                inr (CalibratedRule r' post_spike_weight_decay tc_trace
                       tc_trace_neg STDP_base, method)
            end
      end
  end.

End WeightDependentPostPre.

(** * Properties *)

(** ** Tensor algebra *)

Section TensorFacts.

Local Open Scope R_scope.

Lemma zip_with_map_r {A B C D : Type} (f : A -> C -> D) (g : B -> C)
    (l1 : list A) (l2 : list B) :
  zip_with f l1 (map g l2) = zip_with (fun a b => f a (g b)) l1 l2.
Proof.
  revert l2; induction l1 as [|a l1 IH]; intros [|b l2]; simpl; f_equal; auto.
Qed.

Lemma zip_with_diag {A B : Type} (f : A -> A -> B) (l : list A) :
  zip_with f l l = map (fun a => f a a) l.
Proof. induction l; simpl; f_equal; auto. Qed.

Lemma vsub_vscale_self (c : R) (v : vector) :
  vsub v (vscale c v) = vscale (1 - c) v.
Proof.
  unfold vsub, vscale. rewrite zip_with_map_r, zip_with_diag.
  apply map_ext; intros; ring.
Qed.

Lemma msub_mscale_self (c : R) (m : matrix) :
  msub m (mscale c m) = mscale (1 - c) m.
Proof.
  unfold msub, mscale. rewrite zip_with_map_r, zip_with_diag.
  apply map_ext; intros; apply vsub_vscale_self.
Qed.

Lemma vscale_one (v : vector) : vscale 1 v = v.
Proof.
  unfold vscale. rewrite <- (map_id v) at 2. apply map_ext; intros; ring.
Qed.

Lemma mscale_one (m : matrix) : mscale 1 m = m.
Proof.
  unfold mscale. rewrite <- (map_id m) at 2. apply map_ext, vscale_one.
Qed.

(** A column times a row is their outer product. *)
Lemma map_nth_seq (f : R -> R) (v : vector) :
  map (fun j => f (nth j v 0)) (seq 0 (length v)) = map f v.
Proof.
  rewrite <- (map_map (fun j => nth j v 0) f). f_equal.
  apply nth_ext with (d := 0) (d' := 0).
  - now rewrite length_map, length_seq.
  - intros i Hi. rewrite length_map, length_seq in Hi.
    rewrite (nth_indep _ 0 (nth 0%nat v 0)) by (now rewrite length_map, length_seq).
    rewrite (map_nth (fun j => nth j v 0) (seq 0 (length v)) 0%nat i).
    now rewrite seq_nth.
Qed.

Lemma matmul_column_row (u v : vector) :
  matmul (map (fun a => [a]) u) [v] = ger u v.
Proof.
  unfold matmul, ger; simpl. rewrite map_map. apply map_ext; intros a.
  rewrite <- (map_nth_seq (fun b => a * b) v).
  apply map_ext; intros j; simpl; ring.
Qed.

Lemma bmm_unsqueeze (u v : matrix) :
  bmm (unsqueeze2 u) (unsqueeze1 v) = batched_outer u v.
Proof.
  unfold bmm, unsqueeze2, unsqueeze1, batched_outer.
  revert v; induction u as [|a u IH]; intros [|b v]; simpl; auto.
  now rewrite matmul_column_row, IH.
Qed.

(** Adding or subtracting a zero multiple of a tensor of the same shape
    changes nothing. *)
Lemma vsub_vscale_zero (a u : vector) :
  length a = length u -> vsub a (vscale 0 u) = a.
Proof.
  unfold vsub, vscale.
  revert u; induction a as [|p a IH]; intros [|q u] H; simpl in *;
    try discriminate; auto.
  f_equal; [ring | apply IH; congruence].
Qed.

Lemma vadd_vscale_zero (a u : vector) :
  length a = length u -> vadd a (vscale 0 u) = a.
Proof.
  unfold vadd, vscale.
  revert u; induction a as [|p a IH]; intros [|q u] H; simpl in *;
    try discriminate; auto.
  f_equal; [ring | apply IH; congruence].
Qed.

Lemma msub_mscale_zero (a u : matrix) :
  same_shape a u -> msub a (mscale 0 u) = a.
Proof.
  unfold msub, mscale.
  induction 1; simpl; auto.
  f_equal; [now apply vsub_vscale_zero | assumption].
Qed.

Lemma madd_mscale_zero (a u : matrix) :
  same_shape a u -> madd a (mscale 0 u) = a.
Proof.
  unfold madd, mscale.
  induction 1; simpl; auto.
  f_equal; [now apply vadd_vscale_zero | assumption].
Qed.

Lemma vsub_then_vadd (c d : R) (a u v : vector) :
  vadd (vsub a (vscale c u)) (vscale d v) =
  vadd a (vadd (vscale (- c) u) (vscale d v)).
Proof.
  unfold vadd, vsub, vscale.
  revert u v; induction a as [|p a IH]; intros [|q u] [|q' v]; simpl; auto.
  f_equal; [ring | apply IH].
Qed.

Lemma msub_then_madd (c d : R) (a u v : matrix) :
  madd (msub a (mscale c u)) (mscale d v) =
  madd a (madd (mscale (- c) u) (mscale d v)).
Proof.
  unfold madd, msub, mscale.
  revert u v; induction a as [|p a IH]; intros [|q u] [|q' v]; simpl; auto.
  f_equal; [apply vsub_then_vadd | apply IH].
Qed.

Lemma length_vsub_vscale (c : R) (a u : vector) :
  length a = length u -> length (vsub a (vscale c u)) = length a.
Proof.
  unfold vsub, vscale.
  revert u; induction a as [|p a IH]; intros [|q u] H; simpl in *;
    try discriminate; auto.
Qed.

Lemma same_shape_msub (c : R) (a u v : matrix) :
  same_shape a u -> same_shape a v ->
  same_shape (msub a (mscale c u)) v.
Proof.
  unfold msub, mscale. intros Hu; revert v.
  induction Hu as [|p q a u Hpq _ IH]; intros v Hv; inversion Hv; subst;
    simpl; constructor.
  - rewrite length_vsub_vscale; auto.
  - now apply IH.
Qed.

End TensorFacts.

(** ** The shared step: decay, then bounds *)

Section SharedStep.

Local Open Scope R_scope.

Import LearningRule.

Lemma set_w_same (c : connection) : set_w c (w c) = c.
Proof. now destruct c. Qed.

(** The decay alone: [w - weight_decay * w], nothing when the decay is
    zero. *)
Lemma decay_is_scaling (r : rule) (c : connection) :
  (if truthy (weight_decay r)
   then set_w c (msub (w c) (mscale (weight_decay r) (w c)))
   else c) = set_w c (mscale (1 - weight_decay r) (w c)).
Proof.
  unfold truthy. destruct (Req_dec_T (weight_decay r) 0) as [E|_].
  - rewrite E, Rminus_0_r, mscale_one. symmetry; apply set_w_same.
  - now rewrite msub_mscale_self.
Qed.

(** The shared step, with its two tests written out. *)
Lemma shared_step_unfolded (r : rule) (c : connection) :
  update r c =
  if (is_neg_inf (wmin c) && is_pos_inf (wmax c)) || isinstance_NoOp r
  then set_w c (mscale (1 - weight_decay r) (w c))
  else set_w c (clamp_ (wmin c) (wmax c) (mscale (1 - weight_decay r) (w c))).
Proof.
  unfold update. rewrite decay_is_scaling. simpl.
  destruct (wmin c), (wmax c), (isinstance_NoOp r); reflexivity.
Qed.

(** C1, as the claim words it, fails: with a finite lower bound and an
    infinite upper bound the code clamps, where the claim has the clamp
    skipped.  Weight [-1], bounds [0] and plus infinity, no decay: the code
    leaves [0], the claim [-1]. *)
Lemma update_clamps_under_one_infinite_bound :
  let r := Rule cls_PostPre (0, 0) mean_dim0 0 20 20 25 5 in
  let c := Connection [[-1]] (Lo 0) PosInf 1 in
  w (update r c) = [[0]] /\
  w (spec_update r c) = [[-1]] /\
  update r c <> spec_update r c.
Proof.
  assert (Hcode : w (update (Rule cls_PostPre (0, 0) mean_dim0 0 20 20 25 5)
                            (Connection [[-1]] (Lo 0) PosInf 1)) = [[0]]).
  { unfold update, truthy; simpl.
    destruct (Req_dec_T 0 0) as [_|N]; [|now elim N]. simpl.
    unfold clamp1, Rmax. destruct (Rle_dec (-1) 0) as [_|N]; [reflexivity|lra]. }
  assert (Hspec : w (spec_update (Rule cls_PostPre (0, 0) mean_dim0 0 20 20 25 5)
                                 (Connection [[-1]] (Lo 0) PosInf 1)) = [[-1]]).
  { unfold spec_update; simpl. do 2 f_equal. ring. }
  simpl. repeat split; auto.
  intros E. rewrite E, Hspec in Hcode.
  injection Hcode as H. lra.
Qed.

(** C1, amended: the shared step replaces [w] by [w - weight_decay * w],
    which is [(1 - weight_decay) * w] and is [w] itself when the decay is
    zero, and then clamps it into the bounds, except when both bounds are
    infinite or the rule is NoOp; a single infinite bound leaves only its own
    side open. *)
Theorem update_decays_then_clamps (r : rule) (c : connection) :
  update r c =
  let decayed := mscale (1 - weight_decay r) (w c) in
  if (is_neg_inf (wmin c) && is_pos_inf (wmax c)) || isinstance_NoOp r
  then set_w c decayed
  else set_w c (clamp_ (wmin c) (wmax c) decayed).
Proof.
  unfold update. rewrite decay_is_scaling. simpl.
  destruct (wmin c), (wmax c), (isinstance_NoOp r); reflexivity.
Qed.

Lemma clamp1_in_bounds (lo hi a : R) :
  lo <= hi -> lo <= clamp1 (Lo lo) (Hi hi) a <= hi.
Proof.
  intros H. unfold clamp1, Rmin, Rmax.
  destruct (Rle_dec a lo); destruct (Rle_dec _ hi); lra.
Qed.

Lemma clamp_in_bounds (lo hi : R) (m : matrix) :
  lo <= hi ->
  Forall (Forall (fun a => lo <= a <= hi)) (clamp_ (Lo lo) (Hi hi) m).
Proof.
  intros H. unfold clamp_.
  apply Forall_map, Forall_forall; intros row _.
  apply Forall_map, Forall_forall; intros a _.
  now apply clamp1_in_bounds.
Qed.

End SharedStep.

(** ** Hebbian and PostPre *)

Section TwoFactorRules.

Local Open Scope R_scope.

Import LearningRule.

(** C3: a Hebbian update with infinite bounds, no decay and learning rates
    0.1 and 0.2 leaves
    [w + 0.1 * reduce(outer(pre_spike, post_trace))
       + 0.2 * reduce(outer(pre_trace, post_spike))]:
    both terms are added. *)
Theorem hebbian_update_adds_both_terms (r : rule) (c : call) (cn : connection) :
  wmin cn = NegInf ->
  wmax cn = PosInf ->
  weight_decay r = 0 ->
  nu r = (0.1, 0.2) ->
  w (Hebbian.connection_update r c cn) =
  madd
    (madd (w cn)
       (mscale 0.1 (reduction r (batched_outer (s (source c)) (x (target c))))))
    (mscale 0.2 (reduction r (batched_outer (x (source c)) (s (target c))))).
Proof.
  intros Hmin Hmax Hwd Hnu.
  unfold Hebbian.connection_update.
  rewrite shared_step_unfolded; simpl.
  rewrite Hmin, Hmax; simpl.
  rewrite Hwd, Rminus_0_r, mscale_one.
  unfold nu0, nu1; rewrite Hnu; simpl.
  now rewrite !bmm_unsqueeze.
Qed.

Lemma hebbian_update_adds_both_terms_witness :
  let r := Rule cls_Hebbian (0.1, 0.2) mean_dim0 0 20 20 25 5 in
  let c := Call (Nodes 1 1 [[1]] [[2]] [[0]]) (Nodes 1 1 [[1]] [[3]] [[0]]) [] in
  let cn := Connection [[5]] NegInf PosInf 1 in
  w (Hebbian.connection_update r c cn) =
  madd
    (madd (w cn)
       (mscale 0.1 (reduction r (batched_outer (s (source c)) (x (target c))))))
    (mscale 0.2 (reduction r (batched_outer (x (source c)) (s (target c))))).
Proof.
  intros r c cn.
  apply (hebbian_update_adds_both_terms r c cn); reflexivity.
Defined.

(** C4: a PostPre update changes the weights, before the shared step, by
    [- nu[0] * reduce(outer(pre_spike, post_trace))
     + nu[1] * reduce(outer(pre_trace, post_spike))],
    whatever the learning rates (a zero rate skips its term, which adds
    nothing), spikes and traces. *)
Theorem postpre_subtracts_pre_adds_post (r : rule) (c : call) (cn : connection) :
  let pre := reduction r (batched_outer (s (source c)) (x (target c))) in
  let post := reduction r (batched_outer (x (source c)) (s (target c))) in
  same_shape (w cn) pre ->
  same_shape (w cn) post ->
  PostPre.connection_update r c cn =
  update r
    (set_w cn
       (madd (w cn) (madd (mscale (- nu0 r) pre) (mscale (nu1 r) post)))).
Proof.
  intros pre post Hpre Hpost.
  unfold PostPre.connection_update.
  rewrite !bmm_unsqueeze. fold pre post.
  rewrite <- msub_then_madd. f_equal.
  unfold truthy.
  destruct (Req_dec_T (nu0 r) 0) as [E0|_];
    destruct (Req_dec_T (nu1 r) 0) as [E1|_];
    rewrite ?E0, ?E1; simpl.
  - rewrite (msub_mscale_zero Hpre), (madd_mscale_zero Hpost).
    symmetry; apply set_w_same.
  - now rewrite (msub_mscale_zero Hpre).
  - now rewrite (madd_mscale_zero (same_shape_msub (nu0 r) Hpre Hpost)).
  - reflexivity.
Qed.

Lemma postpre_subtracts_pre_adds_post_witness :
  let r := Rule cls_PostPre (0, 1) mean_dim0 0 20 20 25 5 in
  let c := Call (Nodes 1 1 [[1]] [[2]] [[0]]) (Nodes 1 1 [[1]] [[3]] [[0]]) [] in
  let cn := Connection [[5]] (Lo 0) (Hi 1) 1 in
  PostPre.connection_update r c cn =
  update r
    (set_w cn
       (madd (w cn)
          (madd
             (mscale (- nu0 r)
                (reduction r (batched_outer (s (source c)) (x (target c)))))
             (mscale (nu1 r)
                (reduction r (batched_outer (x (source c)) (s (target c)))))))).
Proof.
  intros r c cn.
  apply (postpre_subtracts_pre_adds_post r c cn);
    repeat constructor.
Defined.

(** C7: with bounds 0 and 1, every entry of the weight matrix lies in
    [0, 1] after a PostPre update, whatever the inputs and learning rates. *)
Theorem postpre_weights_stay_in_unit_interval
    (r : rule) (c : call) (cn : connection) :
  cls r = cls_PostPre ->
  wmin cn = Lo 0 ->
  wmax cn = Hi 1 ->
  Forall (Forall (fun a => 0 <= a <= 1)) (w (PostPre.connection_update r c cn)).
Proof.
  intros Hcls Hmin Hmax.
  unfold PostPre.connection_update.
  rewrite shared_step_unfolded.
  unfold isinstance_NoOp; rewrite Hcls.
  destruct (truthy (nu0 r)), (truthy (nu1 r)); simpl;
    rewrite Hmin, Hmax; simpl; apply clamp_in_bounds; lra.
Qed.

Lemma postpre_weights_stay_in_unit_interval_witness :
  Forall (Forall (fun a => 0 <= a <= 1))
    (w (PostPre.connection_update
          (Rule cls_PostPre (3, 4) mean_dim0 0 20 20 25 5)
          (Call (Nodes 1 1 [[1]] [[2]] [[0]]) (Nodes 1 1 [[1]] [[3]] [[0]]) [])
          (Connection [[5]] (Lo 0) (Hi 1) 1))).
Proof.
  apply postpre_weights_stay_in_unit_interval; reflexivity.
Defined.

End TwoFactorRules.

(** ** Sequences of update calls *)

Section Sequences.

Variable St : Type.
Variable update : call -> Py.M St unit.

Hypothesis update_returns :
  forall c st, kwargs_find "reward" (kw c) <> None ->
               exists st', update c st = (inr tt, st').

(** The state a call of a rewarded sequence finds and the state it leaves. *)
Lemma run_nth (calls : list call) (st0 : St) (k : nat) (c : call) :
  rewarded calls ->
  nth_error calls k = Some c ->
  exists before after,
    nth_error (st0 :: Py.run update calls st0) k = Some before /\
    nth_error (Py.run update calls st0) k = Some after /\
    update c before = (inr tt, after).
Proof.
  intros Hrw; revert st0 k.
  induction Hrw as [|c0 calls Hc0 _ IH]; intros st0 k Hk.
  - destruct k; discriminate.
  - destruct (update_returns c0 st0 Hc0) as (st1 & Hstep).
    simpl Py.run. rewrite Hstep.
    destruct k as [|k]; simpl in Hk.
    + injection Hk as <-. exists st0, st1. auto.
    + destruct (IH st1 k Hk) as (before & after & Hb & Ha & Hs).
      exists before, after. auto.
Qed.

Lemma rewarded_nth (calls : list call) (k : nat) (c : call) :
  rewarded calls ->
  nth_error calls k = Some c ->
  exists reward, kwargs_find "reward" (kw c) = Some reward.
Proof.
  intros Hall Hk. apply nth_error_In in Hk.
  unfold rewarded in Hall; rewrite Forall_forall in Hall.
  specialize (Hall _ Hk).
  destruct (kwargs_find "reward" (kw c)); [eauto|now elim Hall].
Qed.

Lemma nth_error_pred {A : Type} (l : list A) (j : nat) (a : A) :
  nth_error l (S j) = Some a -> exists b, nth_error l j = Some b.
Proof.
  intros H. destruct (nth_error l j) eqn:E; eauto.
  apply nth_error_None in E.
  assert (S j < length l)%nat by (apply nth_error_Some; congruence).
  lia.
Qed.

End Sequences.

(** ** MSTDP: the weight update lags the eligibility by one step *)

Section MSTDPFacts.

Local Open Scope R_scope.

Import MSTDP.

(** One call that is given a reward. *)
Lemma mstdp_step (r : rule) (c : call) (st : state) (reward : R) :
  kwargs_find "reward" (kw c) = Some reward ->
  exists st',
    connection_update r c st = (inr tt, st') /\
    conn st' = connection_after r c reward st /\
    eligibility st' = Some (point_eligibility c st').
Proof.
  intros Hrw.
  unfold connection_update, Py.kwargs_item. rewrite Hrw.
  unfold connection_after, found_eligibility, point_eligibility,
    weight_change, zero_eligibility.
  destruct st as [cn [pp|] [pm|] [e|]];
    MSTDP.exec; (eexists; split; [reflexivity|]); MSTDP.exec;
    rewrite !bmm_unsqueeze; split; reflexivity.
Qed.

Lemma mstdp_returns (r : rule) (c : call) (st : state) :
  kwargs_find "reward" (kw c) <> None ->
  exists st', connection_update r c st = (inr tt, st').
Proof.
  intros H. destruct (kwargs_find "reward" (kw c)) as [rw|] eqn:E;
    [|now elim H].
  destruct (mstdp_step r c st E) as (st' & Hs & _). eauto.
Qed.

(** C2: in every sequence of MSTDP updates, the call at position [k] changes
    the weights (before the shared step) by
    [nu[0] * reduce(reward_k * eligibility)] where [eligibility] is the point
    eligibility computed by the call at position [k - 1], zeros for the first
    call; the spikes of call [k] itself, from which the call recomputes the
    eligibility, have no influence on the weights it leaves. *)
Theorem mstdp_update_uses_previous_eligibility
    (r : rule) (calls : list call) (cn : connection)
    (k : nat) (c : call) (reward : R) :
  rewarded calls ->
  nth_error calls k = Some c ->
  kwargs_find "reward" (kw c) = Some reward ->
  exists before after,
    nth_error (fresh cn :: run r calls (fresh cn)) k = Some before /\
    nth_error (run r calls (fresh cn)) k = Some after /\
    conn after =
      LearningRule.update r
        (set_w (conn before)
           (madd (w (conn before))
              (weight_change r reward
                 match k with
                 | O => zero_eligibility c cn
                 | S j =>
                     match nth_error calls j with
                     | Some previous => point_eligibility previous before
                     | None => []
                     end
                 end))) /\
    eligibility after = Some (point_eligibility c after) /\
    (forall c' : call,
        kw c' = kw c ->
        batch_size (source c') = batch_size (source c) ->
        conn (snd (connection_update r c' before)) = conn after).
Proof.
  intros Hall Hk Hrw.
  destruct (@run_nth _ _ (mstdp_returns r) calls (fresh cn) k c Hall Hk)
    as (before & after & Hb & Ha & Hs).
  exists before, after. split; [exact Hb|]. split; [exact Ha|].
  destruct (mstdp_step r c before Hrw) as (st' & Hs' & Hconn & Helig).
  rewrite Hs in Hs'; injection Hs' as <-.
  assert (Hfound : found_eligibility c before =
                   match k with
                   | O => zero_eligibility c cn
                   | S j =>
                       match nth_error calls j with
                       | Some previous => point_eligibility previous before
                       | None => []
                       end
                   end).
  { destruct k as [|j].
    - simpl in Hb; injection Hb as <-. reflexivity.
    - simpl in Hb.
      destruct (@nth_error_pred _ calls j c Hk) as (previous & Hj). rewrite Hj.
      destruct (@run_nth _ _ (mstdp_returns r) calls (fresh cn) j previous Hall Hj)
        as (b0 & a0 & _ & Ha0 & Hs0).
      unfold run in Hb. rewrite Hb in Ha0; injection Ha0 as <-.
      destruct (@rewarded_nth calls j previous Hall Hj) as (rw & Hp).
      destruct (mstdp_step r previous b0 Hp) as (st'' & Hs'' & _ & He).
      rewrite Hs0 in Hs''; injection Hs'' as <-.
      unfold found_eligibility. now rewrite He. }
  split; [|split].
  - rewrite Hconn. unfold connection_after. now rewrite Hfound.
  - exact Helig.
  - intros c' Hkw Hbs.
    assert (Hrw' : kwargs_find "reward" (kw c') = Some reward)
      by now rewrite Hkw.
    destruct (mstdp_step r c' before Hrw') as (st'' & Hs'' & Hconn' & _).
    rewrite Hs''; simpl. rewrite Hconn', Hconn.
    unfold connection_after, found_eligibility, zero_eligibility.
    now rewrite Hbs.
Qed.

Lemma mstdp_update_uses_previous_eligibility_witness :
  let r := Rule cls_MSTDP (1, 1) mean_dim0 0 20 20 25 5 in
  let c1 :=
    Call (Nodes 1 1 [[1]] [[0]] [[0]]) (Nodes 1 1 [[1]] [[0]] [[0]])
         [("reward"%string, 1)] in
  let c2 :=
    Call (Nodes 1 1 [[0]] [[0]] [[0]]) (Nodes 1 1 [[1]] [[0]] [[0]])
         [("reward"%string, 2)] in
  let cn := Connection [[5]] NegInf PosInf 1 in
  exists before after,
    nth_error (fresh cn :: run r [c1; c2] (fresh cn)) 1 = Some before /\
    nth_error (run r [c1; c2] (fresh cn)) 1 = Some after /\
    conn after =
      LearningRule.update r
        (set_w (conn before)
           (madd (w (conn before))
              (weight_change r 2 (point_eligibility c1 before)))).
Proof.
  intros r c1 c2 cn.
  destruct (@mstdp_update_uses_previous_eligibility r [c1; c2] cn 1 c2 2)
    as (before & after & Hb & Ha & Hc & _).
  - repeat constructor; discriminate.
  - reflexivity.
  - reflexivity.
  - exists before, after. auto.
Defined.

End MSTDPFacts.

(** ** MSTDPET: the eligibility trace filters the point eligibility *)

Section MSTDPETFacts.

Local Open Scope R_scope.

Import MSTDPET.

Lemma mmul_scalar_mscale (m : matrix) (c : R) : mmul_scalar m c = mscale c m.
Proof.
  unfold mmul_scalar, mscale, vmul_scalar, vscale.
  apply map_ext; intros v. apply map_ext; intros a. ring.
Qed.

Lemma mdiv_scalar_mscale (m : matrix) (c : R) :
  mdiv_scalar m c = mscale (1 / c) m.
Proof.
  unfold mdiv_scalar, mscale, vscale.
  apply map_ext; intros v. apply map_ext; intros a. unfold Rdiv; ring.
Qed.

(** One call that is given a reward. *)
Lemma mstdpet_step (r : rule) (c : call) (st : state) (reward : R) :
  kwargs_find "reward" (kw c) = Some reward ->
  exists st',
    connection_update r c st = (inr tt, st') /\
    eligibility_trace st' =
      Some (filter_step r (conn st) (found_trace st)
              (found_eligibility st)) /\
    conn st' =
      LearningRule.update r
        (set_w (conn st)
           (madd (w (conn st))
              (mscale (nu0 r * dt (conn st) * reward)
                 (attr (eligibility_trace st') [])))) /\
    eligibility st' = Some (point_eligibility c st').
Proof.
  intros Hrw.
  unfold connection_update, Py.kwargs_item. rewrite Hrw.
  unfold filter_step, found_trace, found_eligibility,
    point_eligibility, zero_like.
  destruct st as [cn [pp|] [pm|] [e|] [tr|]];
    MSTDPET.exec; (eexists; split; [reflexivity|]); MSTDPET.exec;
    rewrite !mmul_scalar_mscale, !mdiv_scalar_mscale;
    repeat split; reflexivity.
Qed.

Lemma mstdpet_returns (r : rule) (c : call) (st : state) :
  kwargs_find "reward" (kw c) <> None ->
  exists st', connection_update r c st = (inr tt, st').
Proof.
  intros H. destruct (kwargs_find "reward" (kw c)) as [rw|] eqn:E;
    [|now elim H].
  destruct (mstdpet_step r c st E) as (st' & Hs & _). eauto.
Qed.

(** C6: in every sequence of MSTDPET updates, the call at position [k]
    replaces the eligibility trace by
    [exp(-dt / tc_e_trace) * trace + (1 / tc_e_trace) * eligibility], where
    [trace] is the trace left by the previous call and [eligibility] the
    point eligibility computed by the previous call (both zeros for the first
    call), and then changes the weights (before the shared step) by
    [nu[0] * dt * reward * trace'] with [trace'] the trace just updated. *)
Theorem mstdpet_trace_filters_previous_eligibility
    (r : rule) (calls : list call) (cn : connection)
    (k : nat) (c : call) (reward : R) :
  rewarded calls ->
  nth_error calls k = Some c ->
  kwargs_find "reward" (kw c) = Some reward ->
  exists before after trace',
    nth_error (fresh cn :: run r calls (fresh cn)) k = Some before /\
    nth_error (run r calls (fresh cn)) k = Some after /\
    eligibility_trace after = Some trace' /\
    trace' =
      filter_step r (conn before)
        match k with
        | O => zero_like cn
        | S _ => attr (eligibility_trace before) []
        end
        match k with
        | O => zero_like cn
        | S j =>
            match nth_error calls j with
            | Some previous => point_eligibility previous before
            | None => []
            end
        end /\
    conn after =
      LearningRule.update r
        (set_w (conn before)
           (madd (w (conn before))
              (mscale (nu0 r * dt (conn before) * reward) trace'))) /\
    eligibility after = Some (point_eligibility c after).
Proof.
  intros Hall Hk Hrw.
  destruct (@run_nth _ _ (mstdpet_returns r) calls (fresh cn) k c Hall Hk)
    as (before & after & Hb & Ha & Hs).
  destruct (mstdpet_step r c before Hrw) as (st' & Hs' & Htr & Hconn & Helig).
  rewrite Hs in Hs'; injection Hs' as <-.
  exists before, after, (attr (eligibility_trace after) []).
  split; [exact Hb|]. split; [exact Ha|].
  split; [now rewrite Htr|]. split; [|split; assumption].
  rewrite Htr; simpl. destruct k as [|j].
  - simpl in Hb; injection Hb as <-. reflexivity.
  - simpl in Hb.
    destruct (@nth_error_pred _ calls j c Hk) as (previous & Hj). rewrite Hj.
    destruct (@run_nth _ _ (mstdpet_returns r) calls (fresh cn) j previous Hall Hj)
      as (b0 & a0 & _ & Ha0 & Hs0).
    unfold run in Hb. rewrite Hb in Ha0; injection Ha0 as <-.
    destruct (@rewarded_nth calls j previous Hall Hj) as (rw & Hp).
    destruct (mstdpet_step r previous b0 Hp) as (st'' & Hs'' & Ht & _ & He).
    rewrite Hs0 in Hs''; injection Hs'' as <-.
    unfold found_trace, found_eligibility.
    now rewrite Ht, He.
Qed.

Lemma mstdpet_trace_filters_previous_eligibility_witness :
  let r := Rule cls_MSTDPET (1, 1) mean_dim0 0 20 20 25 5 in
  let c1 :=
    Call (Nodes 1 1 [[1]] [[0]] [[0]]) (Nodes 1 1 [[1]] [[0]] [[0]])
         [("reward"%string, 1)] in
  let c2 :=
    Call (Nodes 1 1 [[0]] [[0]] [[0]]) (Nodes 1 1 [[1]] [[0]] [[0]])
         [("reward"%string, 2)] in
  let cn := Connection [[5]] NegInf PosInf 1 in
  exists before after trace',
    nth_error (fresh cn :: run r [c1; c2] (fresh cn)) 1 = Some before /\
    nth_error (run r [c1; c2] (fresh cn)) 1 = Some after /\
    eligibility_trace after = Some trace' /\
    trace' =
      filter_step r (conn before) (attr (eligibility_trace before) [])
        (point_eligibility c1 before).
Proof.
  intros r c1 c2 cn.
  destruct (@mstdpet_trace_filters_previous_eligibility r [c1; c2] cn 1 c2 2)
    as (before & after & trace' & Hb & Ha & Ht & Hf & _).
  - repeat constructor; discriminate.
  - reflexivity.
  - reflexivity.
  - exists before, after, trace'. auto.
Defined.

End MSTDPETFacts.

(** ** Rmax *)

Section RmaxFacts.

Local Open Scope R_scope.

Import Rmax.

Lemma mul_row_by_column_ger (v c : vector) : mul_row_by_column v c = ger c v.
Proof.
  unfold mul_row_by_column, ger.
  apply map_ext; intros a. apply map_ext; intros b. ring.
Qed.

Lemma vsub_quotient (f : R -> R) (a p : vector) :
  vsub a (zip_with Rdiv p (map f p)) =
  zip_with (fun sp q => sp - q / f q) a p.
Proof.
  unfold vsub.
  revert a; induction p as [|q p IH]; intros [|e a]; simpl; auto.
  now rewrite IH.
Qed.

Lemma rmax_step_returns (r : rule) (c : call) (st : state) (reward : R) :
  kwargs_find "reward" (kw c) = Some reward ->
  exists st', connection_update r c st = (inr tt, st').
Proof.
  intros Hrw.
  unfold connection_update, Py.kwargs_item. rewrite Hrw.
  Rmax.exec. eexists; reflexivity.
Qed.

(** C8: an Rmax update that is given a reward multiplies the eligibility
    trace by [1 - dt / tc_e_trace], adds the outer product of [pre_trace]
    with [post_spike - post_spike_prob / (1 + (tc_c / dt) * post_spike_prob)],
    and then changes the weights (before the shared step) by
    [nu[0] * reward * eligibility_trace]. *)
Theorem rmax_update_trace_then_weights
    (r : rule) (c : call) (st : state) (reward : R) :
  kwargs_find "reward" (kw c) = Some reward ->
  exists st' trace',
    connection_update r c st = (inr tt, st') /\
    eligibility_trace st' = Some trace' /\
    trace' =
      madd (mscale (1 - dt (conn st) / tc_e_trace r) (found_trace st))
           (ger (view_flat (x (source c)))
                (bias_corrected r (conn st)
                   (view_flat (s (target c)))
                   (view_flat (s_prob (target c))))) /\
    conn st' =
      LearningRule.update r
        (set_w (conn st)
           (madd (w (conn st)) (mscale (nu0 r * reward) trace'))).
Proof.
  intros Hrw.
  unfold connection_update, Py.kwargs_item. rewrite Hrw.
  unfold found_trace, zero_like, bias_corrected.
  destruct st as [cn [tr|]];
    Rmax.exec; (eexists; eexists; split; [reflexivity|]); Rmax.exec;
    rewrite mmul_scalar_mscale, mul_row_by_column_ger, vsub_quotient;
    repeat split; reflexivity.
Qed.

Lemma rmax_update_trace_then_weights_witness :
  let r := Rule cls_Rmax (1, 1) mean_dim0 0 20 20 25 5 in
  let c :=
    Call (Nodes 1 1 [[1]] [[2]] [[0]]) (Nodes 1 1 [[1]] [[0]] [[1 / 2]])
         [("reward"%string, 3)] in
  let st := State (Connection [[5]] (Lo 0) (Hi 1) 1) None in
  exists st' trace',
    connection_update r c st = (inr tt, st') /\
    eligibility_trace st' = Some trace' /\
    conn st' =
      LearningRule.update r
        (set_w (conn st)
           (madd (w (conn st)) (mscale (nu0 r * 3) trace'))).
Proof.
  intros r c st.
  destruct (@rmax_update_trace_then_weights r c st 3)
    as (st' & trace' & Hs & Ht & _ & Hc).
  - reflexivity.
  - exists st', trace'. auto.
Defined.

End RmaxFacts.

(** ** The reward of the reward-modulated rules *)

Section RewardArgument.

Local Open Scope R_scope.

Lemma mstdp_without_reward (r : rule) (c : call) (st : MSTDP.state) :
  kwargs_find "reward" (kw c) = None ->
  fst (MSTDP.connection_update r c st) = inl (KeyError "reward") /\
  MSTDP.conn (snd (MSTDP.connection_update r c st)) = MSTDP.conn st.
Proof.
  intros H.
  unfold MSTDP.connection_update, Py.kwargs_item. rewrite H.
  destruct st as [cn [pp|] [pm|] [e|]]; MSTDP.exec; auto.
Qed.

Lemma mstdpet_without_reward (r : rule) (c : call) (st : MSTDPET.state) :
  kwargs_find "reward" (kw c) = None ->
  fst (MSTDPET.connection_update r c st) = inl (KeyError "reward") /\
  MSTDPET.conn (snd (MSTDPET.connection_update r c st)) = MSTDPET.conn st.
Proof.
  intros H.
  unfold MSTDPET.connection_update, Py.kwargs_item. rewrite H.
  destruct st as [cn [pp|] [pm|] [e|] [tr|]]; MSTDPET.exec; auto.
Qed.

Lemma rmax_without_reward (r : rule) (c : call) (st : Rmax.state) :
  kwargs_find "reward" (kw c) = None ->
  fst (Rmax.connection_update r c st) = inl (KeyError "reward") /\
  Rmax.conn (snd (Rmax.connection_update r c st)) = Rmax.conn st.
Proof.
  intros H.
  unfold Rmax.connection_update, Py.kwargs_item. rewrite H.
  destruct st as [cn [tr|]]; Rmax.exec; auto.
Qed.

(** C9: an update of MSTDP, MSTDPET or Rmax whose keyword arguments hold no
    reward raises the key error for "reward" and leaves the connection, so the
    weights, as they were; with a reward it returns.  The updates of NoOp,
    Hebbian and PostPre do the same with and without keyword arguments. *)
Theorem reward_required_by_reward_modulated_rules (r : rule) (c : call) :
  (forall st,
      match kwargs_find "reward" (kw c) with
      | None =>
          fst (MSTDP.connection_update r c st) = inl (KeyError "reward") /\
          MSTDP.conn (snd (MSTDP.connection_update r c st)) = MSTDP.conn st
      | Some _ => fst (MSTDP.connection_update r c st) = inr tt
      end) /\
  (forall st,
      match kwargs_find "reward" (kw c) with
      | None =>
          fst (MSTDPET.connection_update r c st) = inl (KeyError "reward") /\
          MSTDPET.conn (snd (MSTDPET.connection_update r c st)) =
            MSTDPET.conn st
      | Some _ => fst (MSTDPET.connection_update r c st) = inr tt
      end) /\
  (forall st,
      match kwargs_find "reward" (kw c) with
      | None =>
          fst (Rmax.connection_update r c st) = inl (KeyError "reward") /\
          Rmax.conn (snd (Rmax.connection_update r c st)) = Rmax.conn st
      | Some _ => fst (Rmax.connection_update r c st) = inr tt
      end) /\
  (forall cn,
      NoOp.update r c cn = NoOp.update r (without_kwargs c) cn /\
      Hebbian.connection_update r c cn =
        Hebbian.connection_update r (without_kwargs c) cn /\
      PostPre.connection_update r c cn =
        PostPre.connection_update r (without_kwargs c) cn).
Proof.
  repeat split; try reflexivity; intros st;
    destruct (kwargs_find "reward" (kw c)) as [rw|] eqn:E.
  - destruct (mstdp_step r c st E) as (st' & Hs & _). now rewrite Hs.
  - now apply mstdp_without_reward.
  - destruct (mstdpet_step r c st E) as (st' & Hs & _). now rewrite Hs.
  - now apply mstdpet_without_reward.
  - destruct (@rmax_step_returns r c st rw E) as (st' & Hs). now rewrite Hs.
  - now apply rmax_without_reward.
Qed.

End RewardArgument.

(** ** WeightDependentPostPre: the indices of the calibrated lookup *)

Section CalibratedLookup.

Import WeightDependentPostPre.

Local Open Scope Z_scope.
Local Open Scope Q_scope.

(** Python rounds halves to the even neighbour and truncates towards zero. *)
Example round_half_even_ties :
  map round_half_even [1 # 2; 3 # 2; 5 # 2; - (1 # 2); - (3 # 2); 201 # 2] =
  [0; 2; 2; 0; -2; 100]%Z.
Proof. reflexivity. Qed.

Example truncate_towards_zero :
  map truncate [7 # 2; - (7 # 2); - (1 # 2); 239 # 2] = [3; -3; 0; 119]%Z.
Proof. reflexivity. Qed.

Lemma tensor_index_nonneg {A : Type} (t : list A) (i : Z) (d : A) :
  (0 <= i < Z.of_nat (List.length t))%Z ->
  tensor_index t i = inr (nth (Z.to_nat i) t d).
Proof.
  intros H. unfold tensor_index.
  replace (i <? 0)%Z with false by (symmetry; apply Z.ltb_ge; lia).
  replace (0 <=? i)%Z with true by (symmetry; apply Z.leb_le; lia).
  replace (i <? Z.of_nat (List.length t))%Z with true
    by (symmetry; apply Z.ltb_lt; lia).
  simpl.
  destruct (nth_error t (Z.to_nat i)) as [a|] eqn:E.
  - now rewrite (nth_error_nth _ _ d E).
  - apply nth_error_None in E. lia.
Qed.

Lemma tensor_index_beyond {A : Type} (t : list A) (i : Z) :
  (Z.of_nat (List.length t) <= i)%Z -> tensor_index t i = inl IndexError.
Proof.
  intros H. unfold tensor_index.
  replace (i <? 0)%Z with false by (symmetry; apply Z.ltb_ge; lia).
  replace (i <? Z.of_nat (List.length t))%Z with false
    by (symmetry; apply Z.ltb_ge; lia).
  now rewrite andb_false_r.
Qed.

(** A row of the table that the first index selects has 120 entries. *)
Lemma table_row (STDP_base : list (list Q)) (i : Z) :
  table_shape STDP_base ->
  (0 <= i <= 100)%Z ->
  tensor_index STDP_base i = inr (nth (Z.to_nat i) STDP_base []) /\
  List.length (nth (Z.to_nat i) STDP_base []) = 120%nat.
Proof.
  intros [Hrows Hcols] Hi. split.
  - apply tensor_index_nonneg. rewrite Hrows. lia.
  - rewrite Forall_forall in Hcols. apply Hcols, nth_In. rewrite Hrows. lia.
Qed.

Lemma truncate_inject_Z (z : Z) : truncate (inject_Z z) = z.
Proof.
  unfold truncate. destruct (Qle_bool 0 (inject_Z z)).
  - apply Qfloor_Z.
  - apply Qceiling_Z.
Qed.

Lemma guard_outside (second_index : pyfloat) :
  outside_0_120 second_index -> guard second_index = Fin 0.
Proof.
  unfold guard. destruct second_index as [q| | |]; simpl; auto;
    [|intros []].
  intros [H|H].
  - replace (Qle_bool 0 q) with false; [now rewrite orb_true_r|].
    symmetry. apply not_true_is_false. intros E.
    apply Qle_bool_iff in E. apply (Qlt_not_le _ _ H E).
  - replace (Qle_bool q 120) with false; [reflexivity|].
    symmetry. apply not_true_is_false. intros E.
    apply Qle_bool_iff in E. apply (Qlt_not_le _ _ H E).
Qed.

(** The first index that [round_to_percent] leaves for a weight is the float
    whose integer value is the row index. *)
Lemma round_to_percent_row (nu0 : Q) (wv : pyfloat) (i : Z) :
  row_index nu0 wv = inr i ->
  exists first_index,
    round_to_percent nu0 [[wv]] = inr [[first_index]] /\
    py_int first_index = inr i.
Proof.
  unfold row_index, round_to_percent; simpl.
  destruct (round_entry (fmul (fdiv wv nu0) 100)) as [e|a]; simpl;
    [discriminate|].
  intros H. exists a. auto.
Qed.

(** What [delta_w_custom] returns is made synapse by synapse: the entry at a
    position is the entry of the table that the lookup reads for the weight
    and the transformed trace product at that position. *)
Lemma for_each_nth {A B : Type} (f : A -> exn + B) (l : list A) (l' : list B)
    (k : nat) (a : A) :
  for_each f l = inr l' ->
  nth_error l k = Some a ->
  exists b, f a = inr b /\ nth_error l' k = Some b.
Proof.
  revert l' k; induction l as [|a0 l IH]; intros l' k Hl Hk.
  - destruct k; discriminate.
  - simpl in Hl. destruct (f a0) as [e|b0] eqn:E0; [discriminate|].
    simpl in Hl. destruct (for_each f l) as [e|bs] eqn:E; [discriminate|].
    simpl in Hl. injection Hl as <-.
    destruct k as [|k]; simpl in Hk.
    + injection Hk as <-. exists b0. auto.
    + destruct (IH bs k eq_refl Hk) as (b & Hb & Hn). exists b. auto.
Qed.

Lemma delta_w_custom_row_nth (STDP_base : list (list Q))
    (first_index second_index delta out : list pyfloat) (k : nat)
    (fi : pyfloat) :
  delta_w_custom_row STDP_base first_index second_index delta = inr out ->
  nth_error first_index k = Some fi ->
  exists si v,
    nth_error second_index k = Some si /\
    lookup STDP_base fi si = inr v /\
    nth_error out k = Some (Fin v).
Proof.
  revert second_index delta out k.
  induction first_index as [|f0 first_index IH];
    intros second_index delta out k Hrow Hk.
  - destruct k; discriminate.
  - simpl in Hrow.
    destruct second_index as [|s0 second_index]; [discriminate|].
    destruct delta as [|d0 delta]; [discriminate|].
    destruct (lookup STDP_base f0 s0) as [e|v0] eqn:E0; [discriminate|].
    simpl in Hrow.
    destruct (delta_w_custom_row STDP_base first_index second_index delta)
      as [e|rest] eqn:E; [discriminate|].
    simpl in Hrow. injection Hrow as <-.
    destruct k as [|k]; simpl in Hk.
    + injection Hk as <-. exists s0, v0. auto.
    + destruct (IH _ _ _ k E Hk) as (si & v & Hs & Hl & Ho).
      exists si, v. auto.
Qed.

Lemma delta_w_custom_rows_nth (STDP_base : list (list Q))
    (first_index second_index delta out : fmatrix) (i : nat)
    (first_row : list pyfloat) :
  delta_w_custom_rows STDP_base first_index second_index delta = inr out ->
  nth_error first_index i = Some first_row ->
  exists second_row delta_row out_row,
    nth_error second_index i = Some second_row /\
    delta_w_custom_row STDP_base first_row second_row delta_row =
      inr out_row /\
    nth_error out i = Some out_row.
Proof.
  revert second_index delta out i.
  induction first_index as [|f0 first_index IH];
    intros second_index delta out i Hrows Hi.
  - destruct i; discriminate.
  - simpl in Hrows.
    destruct second_index as [|s0 second_index]; [discriminate|].
    destruct delta as [|d0 delta]; [discriminate|].
    destruct (delta_w_custom_row STDP_base f0 s0 d0) as [e|r0] eqn:E0;
      [discriminate|].
    simpl in Hrows.
    destruct (delta_w_custom_rows STDP_base first_index second_index delta)
      as [e|rest] eqn:E; [discriminate|].
    simpl in Hrows. injection Hrows as <-.
    destruct i as [|i]; simpl in Hi.
    + injection Hi as <-. exists s0, d0, r0. auto.
    + destruct (IH _ _ _ i E Hi) as (sr & dr & orow & Hs & Hr & Ho).
      exists sr, dr, orow. auto.
Qed.

Lemma nth_error_map_inv {A B : Type} (f : A -> B) (l : list A) (k : nat)
    (b : B) :
  nth_error (map f l) k = Some b ->
  exists a, nth_error l k = Some a /\ b = f a.
Proof.
  rewrite nth_error_map. destruct (nth_error l k) as [a|]; simpl;
    [|discriminate].
  intros H; injection H as <-. eauto.
Qed.

Lemma delta_w_custom_per_synapse (STDP_base : list (list Q)) (nu0 : Q)
    (w delta out : fmatrix) (i k : nat) (w_row : list pyfloat) (wv : pyfloat) :
  delta_w_custom STDP_base nu0 w delta = inr out ->
  nth_error w i = Some w_row ->
  nth_error w_row k = Some wv ->
  exists delta_row dv out_row first_index v,
    nth_error delta i = Some delta_row /\
    nth_error delta_row k = Some dv /\
    round_entry (fmul (fdiv wv nu0) 100) = inr first_index /\
    lookup STDP_base first_index (fadd dv 60) = inr v /\
    nth_error out i = Some out_row /\
    nth_error out_row k = Some (Fin v).
Proof.
  unfold delta_w_custom, round_to_percent. intros Hd Hi Hk.
  destruct (for_each _ _) as [e|first] eqn:Hfirst in Hd; [discriminate|].
  simpl in Hd.
  assert (Hi' : nth_error
                  (map (map (fun a => fmul a 100))
                     (map (map (fun a => fdiv a nu0)) w)) i =
                Some (map (fun a => fmul a 100)
                        (map (fun a => fdiv a nu0) w_row))).
  { now rewrite !nth_error_map, Hi. }
  destruct (@for_each_nth _ _ _ _ _ _ _ Hfirst Hi') as (first_row & Hfr & Hfi).
  assert (Hk' : nth_error
                  (map (fun a => fmul a 100)
                     (map (fun a => fdiv a nu0) w_row)) k =
                Some (fmul (fdiv wv nu0) 100)).
  { now rewrite !nth_error_map, Hk. }
  destruct (@for_each_nth _ _ _ _ _ _ _ Hfr Hk') as (fi & Hentry & Hfk).
  destruct (@delta_w_custom_rows_nth _ _ _ _ _ _ _ Hd Hfi)
    as (second_row & delta_row0 & out_row & Hs & Hrow & Ho).
  destruct (@nth_error_map_inv _ _ _ _ _ _ Hs) as (delta_row & Hdr & ->).
  destruct (@delta_w_custom_row_nth _ _ _ _ _ _ _ Hrow Hfk)
    as (si & v & Hsi & Hl & Hov).
  destruct (@nth_error_map_inv _ _ _ _ _ _ Hsi) as (dv & Hdv & ->).
  exists delta_row, dv, out_row, fi, v. auto 10.
Qed.

Lemma zeros_101_120_shape : table_shape zeros_101_120.
Proof.
  split; [reflexivity|].
  apply Forall_forall; intros row Hrow.
  apply repeat_spec in Hrow. now subst.
Qed.

(** A read with both indices in range returns the entry of the table at the
    pair. *)
Lemma lookup_in_table (STDP_base : list (list Q))
    (first_index second_index : pyfloat) (i k : Z) :
  table_shape STDP_base ->
  py_int first_index = inr i ->
  py_int (guard second_index) = inr k ->
  in_table i k ->
  lookup STDP_base first_index second_index =
    inr (nth (Z.to_nat k) (nth (Z.to_nat i) STDP_base []) 0).
Proof.
  intros Ht Hi Hk [Hr Hc].
  destruct (table_row Ht Hr) as [Hrow Hlen].
  unfold lookup. rewrite Hi. simpl. rewrite Hrow. simpl. rewrite Hk. simpl.
  apply tensor_index_nonneg. rewrite Hlen. lia.
Qed.

(** A call in which every synapse reads inside of the table returns. *)
Lemma delta_w_custom_row_returns (STDP_base : list (list Q)) (nu0 : Q)
    (w_row delta_row : list pyfloat) :
  table_shape STDP_base ->
  Forall2 (fun wv dv =>
     exists i k,
       row_index nu0 wv = inr i /\ column_index dv = inr k /\ in_table i k)
    w_row delta_row ->
  exists first_row out_row,
    for_each round_entry
      (map (fun a => fmul a 100) (map (fun a => fdiv a nu0) w_row)) =
      inr first_row /\
    delta_w_custom_row STDP_base first_row
      (map (fun d => fadd d 60) delta_row) delta_row = inr out_row.
Proof.
  intros Ht H. induction H as [|wv dv w_row delta_row Hs _ IH].
  - exists [], []. split; reflexivity.
  - destruct IH as (first_row & out_row & Hf & Hr).
    destruct Hs as (i & k & Hi & Hk & Hin).
    unfold row_index in Hi.
    destruct (round_entry (fmul (fdiv wv nu0) 100)) as [e|fi] eqn:E;
      [discriminate|].
    simpl in Hi.
    exists (fi :: first_row).
    eexists. split.
    + simpl. rewrite E. simpl. rewrite Hf. reflexivity.
    + simpl. rewrite (@lookup_in_table _ _ _ _ _ Ht Hi Hk Hin). simpl.
      rewrite Hr. reflexivity.
Qed.

Lemma delta_w_custom_returns (STDP_base : list (list Q)) (nu0 : Q)
    (w delta : fmatrix) :
  table_shape STDP_base ->
  reads_in_table nu0 w delta ->
  exists out, delta_w_custom STDP_base nu0 w delta = inr out.
Proof.
  intros Ht H. unfold delta_w_custom, round_to_percent.
  induction H as [|w_row delta_row w delta Hrow _ IH].
  - exists []. reflexivity.
  - destruct (@delta_w_custom_row_returns _ _ _ _ Ht Hrow)
      as (first_row & out_row & Hf & Hr).
    destruct IH as (out & Hout).
    destruct (for_each (for_each round_entry) _) as [e|first_index] eqn:E
      in Hout; [discriminate|].
    simpl in Hout.
    exists (out_row :: out).
    simpl. rewrite Hf. simpl. rewrite E. simpl. rewrite Hr. simpl.
    rewrite Hout. reflexivity.
Qed.

(** C5, amended: at a synapse whose row index lies in [0, 100] and whose
    second index [delta + 60] lies outside of [0, 120] (121 and -5 are such
    indices), the guard replaces the second index by 0 and the read at the
    synapse returns entry 0 of the row that the first index selects, raising
    nothing.  This is the entry that a returning call has written at the
    position, in weight matrices of any size, and the call returns when
    every synapse reads inside of the table. *)
Theorem out_of_range_second_index_reads_column_zero
    (STDP_base : list (list Q)) (nu0 : Q) (w delta : fmatrix) (i k : nat)
    (w_row delta_row : list pyfloat) (wv dv : pyfloat) (r : Z) :
  table_shape STDP_base ->
  nth_error w i = Some w_row ->
  nth_error w_row k = Some wv ->
  nth_error delta i = Some delta_row ->
  nth_error delta_row k = Some dv ->
  row_index nu0 wv = inr r ->
  (0 <= r <= 100)%Z ->
  outside_0_120 (fadd dv 60) ->
  guard (fadd dv 60) = Fin 0 /\
  column_index dv = inr 0%Z /\
  (exists first_index,
     round_entry (fmul (fdiv wv nu0) 100) = inr first_index /\
     lookup STDP_base first_index (fadd dv 60) =
       inr (nth 0 (nth (Z.to_nat r) STDP_base []) 0)) /\
  (forall out,
     delta_w_custom STDP_base nu0 w delta = inr out ->
     exists out_row,
       nth_error out i = Some out_row /\
       nth_error out_row k =
         Some (Fin (nth 0 (nth (Z.to_nat r) STDP_base []) 0))) /\
  (reads_in_table nu0 w delta ->
   exists out, delta_w_custom STDP_base nu0 w delta = inr out).
Proof.
  intros Ht Hw Hwv Hd Hdv Hrow Hr Hout.
  pose proof (guard_outside _ Hout) as Hg.
  assert (Hcol : column_index dv = inr 0%Z).
  { unfold column_index. now rewrite Hg. }
  unfold row_index in Hrow.
  destruct (round_entry (fmul (fdiv wv nu0) 100)) as [e|fi] eqn:E;
    [discriminate|].
  simpl in Hrow.
  assert (Hl : lookup STDP_base fi (fadd dv 60) =
               inr (nth 0 (nth (Z.to_nat r) STDP_base []) 0)).
  { apply (@lookup_in_table STDP_base fi (fadd dv 60) r 0%Z Ht Hrow Hcol).
    split; [exact Hr|lia]. }
  split; [exact Hg|]. split; [exact Hcol|].
  split; [exists fi; split; [reflexivity|exact Hl]|].
  split; [|intros Hall; exact (@delta_w_custom_returns _ _ _ _ Ht Hall)].
  intros out Hcall.
  destruct (@delta_w_custom_per_synapse _ _ _ _ _ _ _ _ _ Hcall Hw Hwv)
    as (delta_row' & dv' & out_row & fi' & v & Hd' & Hdv' & Hfi & Hl' & Ho & Hv).
  rewrite Hd in Hd'. injection Hd' as <-.
  rewrite Hdv in Hdv'. injection Hdv' as <-.
  rewrite E in Hfi. injection Hfi as <-.
  rewrite Hl in Hl'. injection Hl' as <-.
  exists out_row. split; [exact Ho|exact Hv].
Qed.

Lemma numbered_table_shape : table_shape numbered_table.
Proof.
  split; [reflexivity|].
  apply Forall_forall; intros row Hrow.
  apply in_map_iff in Hrow. destruct Hrow as (i & <- & _).
  now rewrite length_map, length_seq.
Qed.

Lemma out_of_range_second_index_reads_column_zero_witness :
  (fadd (Fin 61) 60 = Fin 121 /\ fadd (Fin (-65)) 60 = Fin (-5)) /\
  exists out,
    delta_w_custom numbered_table (1 # 2)
      [[Fin (1 # 4); Fin (- (1 # 2))]; [Fin 0; Fin (1 # 8)]]
      [[Fin 61; Fin (-65)]; [Fin 7; PInf]] = inr out /\
    (exists out_row,
       nth_error out 0 = Some out_row /\
       nth_error out_row 0 = Some (Fin 50000)) /\
    (exists out_row,
       nth_error out 0 = Some out_row /\
       nth_error out_row 1 = Some (Fin 100000)).
Proof.
  split; [split; reflexivity|].
  assert (Hall : reads_in_table (1 # 2)
            [[Fin (1 # 4); Fin (- (1 # 2))]; [Fin 0; Fin (1 # 8)]]
            [[Fin 61; Fin (-65)]; [Fin 7; PInf]]).
  { unfold reads_in_table.
    repeat first [apply Forall2_nil | apply Forall2_cons];
      (eexists; eexists;
       split; [vm_compute; reflexivity|];
       split; [vm_compute; reflexivity|];
       unfold in_table; lia). }
  destruct (@out_of_range_second_index_reads_column_zero
              numbered_table (1 # 2)
              [[Fin (1 # 4); Fin (- (1 # 2))]; [Fin 0; Fin (1 # 8)]]
              [[Fin 61; Fin (-65)]; [Fin 7; PInf]] 0 0
              [Fin (1 # 4); Fin (- (1 # 2))] [Fin 61; Fin (-65)]
              (Fin (1 # 4)) (Fin 61) 50%Z)
    as (_ & _ & _ & Hfirst & Hreturns).
  { exact numbered_table_shape. }
  { reflexivity. }
  { reflexivity. }
  { reflexivity. }
  { reflexivity. }
  { reflexivity. }
  { lia. }
  { simpl. right. reflexivity. }
  destruct (@out_of_range_second_index_reads_column_zero
              numbered_table (1 # 2)
              [[Fin (1 # 4); Fin (- (1 # 2))]; [Fin 0; Fin (1 # 8)]]
              [[Fin 61; Fin (-65)]; [Fin 7; PInf]] 0 1
              [Fin (1 # 4); Fin (- (1 # 2))] [Fin 61; Fin (-65)]
              (Fin (- (1 # 2))) (Fin (-65)) 100%Z)
    as (_ & _ & _ & Hsecond & _).
  { exact numbered_table_shape. }
  { reflexivity. }
  { reflexivity. }
  { reflexivity. }
  { reflexivity. }
  { reflexivity. }
  { lia. }
  { simpl. left. reflexivity. }
  destruct (Hreturns Hall) as (out & Hcall).
  exists out. split; [exact Hcall|].
  split; [exact (Hfirst out Hcall)|exact (Hsecond out Hcall)].
Defined.

(** C5, as the claim words it, fails: the guard is on the second index only.
    With the second index 121 replaced by 0, a weight of [2] with
    [nu[0] = 1] gives the row index 200 and the read raises an index error;
    with [nu[0] = 0], the value left by the base class, the quotient is an
    infinity and [round] raises before the second index -5 is looked at. *)
Lemma out_of_range_second_index_raises_on_unguarded_row :
  outside_0_120 (fadd (Fin 61) 60) /\
  guard (fadd (Fin 61) 60) = Fin 0 /\
  row_index 1 (Fin 2) = inr 200%Z /\
  delta_w_custom numbered_table 1 [[Fin 2]] [[Fin 61]] = inl IndexError /\
  outside_0_120 (fadd (Fin (-65)) 60) /\
  row_index 0 (Fin (1 # 4)) = inl OverflowError /\
  delta_w_custom numbered_table 0 [[Fin (1 # 4)]] [[Fin (-65)]] =
    inl OverflowError.
Proof.
  repeat split; try (vm_compute; reflexivity).
  - simpl. right. reflexivity.
  - simpl. left. reflexivity.
Qed.

(** C10, as the claim words it, fails twice.  A weight of [2] with
    [nu[0] = 1] gives the row index 200, and the transformed trace product
    [60] gives the second index 120, which passes the guard and is used as
    the column index: both reads leave the 101 by 120 table and raise. *)
Lemma lookup_indices_leave_the_table :
  row_index 1 (Fin 2) = inr 200%Z /\
  column_index (Fin 60) = inr 120%Z /\
  ~ in_table 200 0 /\
  ~ in_table 0 120 /\
  delta_w_custom zeros_101_120 1 [[Fin 2]] [[Fin 0]] = inl IndexError /\
  delta_w_custom zeros_101_120 1 [[Fin 0]] [[Fin 60]] = inl IndexError.
Proof.
  repeat split; try (vm_compute; reflexivity);
    unfold in_table; lia.
Qed.

(** The second index 120 passes the guard and is read as column 120, one
    past the last column of every table of 101 by 120 entries. *)
Lemma second_index_120_raises
    (STDP_base : list (list Q)) (first_index : pyfloat) (i : Z) :
  table_shape STDP_base ->
  py_int first_index = inr i ->
  (0 <= i <= 100)%Z ->
  guard (Fin 120) = Fin 120 /\
  lookup STDP_base first_index (Fin 120) = inl IndexError.
Proof.
  intros Ht Hi Hrange. split; [reflexivity|].
  destruct (table_row Ht Hrange) as [Hrow Hlen].
  unfold lookup. change (guard (Fin 120)) with (Fin 120).
  rewrite Hi. simpl. rewrite Hrow. simpl.
  change (truncate 120) with 120%Z.
  apply tensor_index_beyond. rewrite Hlen. lia.
Qed.

(** Python [round] stays between the integers that bound its argument. *)
Lemma round_half_even_le (q : Q) (m : Z) :
  q <= inject_Z m -> (round_half_even q <= m)%Z.
Proof.
  intros H. unfold round_half_even.
  pose proof (Qfloor_le q) as Hf.
  assert (Hfm : (Qfloor q <= m)%Z).
  { rewrite <- (Qfloor_Z m). now apply Qfloor_resp_le. }
  assert (Hstep : 1 # 2 <= q - inject_Z (Qfloor q) -> (Qfloor q + 1 <= m)%Z).
  { intros Hd.
    assert (Hlt : inject_Z (Qfloor q) < inject_Z m) by lra.
    rewrite <- Zlt_Qlt in Hlt. lia. }
  destruct (Qcompare_spec (q - inject_Z (Qfloor q)) (1 # 2)) as [E|E|E].
  - destruct (Z.even (Qfloor q)); [exact Hfm|].
    apply Hstep. rewrite E. apply Qle_refl.
  - exact Hfm.
  - apply Hstep. now apply Qlt_le_weak.
Qed.

Lemma round_half_even_ge (q : Q) (m : Z) :
  inject_Z m <= q -> (m <= round_half_even q)%Z.
Proof.
  intros H. unfold round_half_even.
  assert (Hfm : (m <= Qfloor q)%Z).
  { rewrite <- (Qfloor_Z m). now apply Qfloor_resp_le. }
  destruct (Qcompare_spec (q - inject_Z (Qfloor q)) (1 # 2)) as [E|E|E];
    try destruct (Z.even (Qfloor q)); lia.
Qed.

(** The first index of a finite weight: the magnitude of the rounded
    percentage. *)
Lemma round_to_percent_entry (nu0 wq : Q) :
  ~ nu0 == 0 ->
  round_to_percent nu0 [[Fin wq]] =
    inr [[Fin (inject_Z (Z.abs (round_half_even (wq / nu0 * 100))))]] /\
  row_index nu0 (Fin wq) =
    inr (Z.abs (round_half_even (wq / nu0 * 100))).
Proof.
  intros Hnu.
  assert (E : Qeq_bool nu0 0 = false).
  { apply not_true_is_false. intros E. now apply Qeq_bool_iff in E. }
  unfold round_to_percent, row_index, round_entry, fdiv, fmul; simpl.
  rewrite E; simpl.
  set (z := round_half_even (wq / nu0 * 100)).
  destruct (Qle_bool 0 (inject_Z z)) eqn:Hz; simpl.
  - apply Qle_bool_iff in Hz.
    assert (Hz' : (0 <= z)%Z) by (rewrite Zle_Qle; exact Hz).
    rewrite Z.abs_eq by exact Hz'.
    now rewrite truncate_inject_Z.
  - assert (Hneg : (z < 0)%Z).
    { destruct (Z.lt_ge_cases z 0) as [L|G]; [exact L|].
      rewrite Zle_Qle in G. apply Qle_bool_iff in G.
      change (inject_Z 0) with 0 in G. congruence. }
    rewrite Z.abs_neq by lia.
    change (- inject_Z z) with (inject_Z (- z)).
    now rewrite truncate_inject_Z.
Qed.

(** The column index of a second index that is a number other than 120 (an
    infinity counts as one). *)
Lemma column_index_below_120 (dv : pyfloat) :
  dv <> NaN ->
  (forall d, dv = Fin d -> ~ d + 60 == 120) ->
  exists k,
    column_index dv = inr k /\ (0 <= k <= 119)%Z /\
    py_int (guard (fadd dv 60)) = inr k.
Proof.
  intros Hnan H120. unfold column_index.
  destruct dv as [d| | |]; try (now elim Hnan);
    try (exists 0%Z; repeat split; lia).
  specialize (H120 d eq_refl).
  unfold guard, fadd, fgt, flt.
  destruct (Qle_bool (d + 60) 120) eqn:E1;
    destruct (Qle_bool 0 (d + 60)) eqn:E2; simpl;
    try (exists 0%Z; repeat split; lia).
  apply Qle_bool_iff in E1, E2.
  exists (truncate (d + 60)). split; [reflexivity|]. split; [|reflexivity].
  unfold truncate.
  replace (Qle_bool 0 (d + 60)) with true
    by (symmetry; now apply Qle_bool_iff).
  split.
  - change 0%Z with (Qfloor 0). now apply Qfloor_resp_le.
  - pose proof (Qfloor_le (d + 60)) as Hf.
    assert (Hlt : d + 60 < 120).
    { apply Qle_lteq in E1. destruct E1 as [L|Eq]; [exact L|now elim H120]. }
    assert (Hz : inject_Z (Qfloor (d + 60)) < inject_Z 120).
    { eapply Qle_lt_trans; [exact Hf|exact Hlt]. }
    rewrite <- Zlt_Qlt in Hz. lia.
Qed.

(** C10, amended: at a synapse whose weight [w] has
    [|100 * w / nu[0]| <= 100] (with [nu[0]] not zero) and whose second index
    is a number other than exactly 120, the pair of indices used to read the
    table is in range, the row in [0, 100] and the column in [0, 119], and
    the lookup returns the entry of the table at that pair. *)
Theorem lookup_indices_in_table_for_scaled_weights
    (STDP_base : list (list Q)) (nu0 wq : Q) (dv : pyfloat) :
  table_shape STDP_base ->
  ~ nu0 == 0 ->
  Qabs (wq / nu0 * 100) <= 100 ->
  dv <> NaN ->
  (forall d, dv = Fin d -> ~ d + 60 == 120) ->
  exists i k,
    row_index nu0 (Fin wq) = inr i /\
    column_index dv = inr k /\
    in_table i k /\
    delta_w_custom STDP_base nu0 [[Fin wq]] [[dv]] =
      inr [[Fin (nth (Z.to_nat k) (nth (Z.to_nat i) STDP_base []) 0)]].
Proof.
  intros Ht Hnu Hw Hnan H120.
  destruct (round_to_percent_entry wq Hnu) as [Hfirst Hrow].
  destruct (column_index_below_120 Hnan H120) as (k & Hcol & Hk & Hint).
  set (z := round_half_even (wq / nu0 * 100)) in *.
  assert (Hz : (0 <= Z.abs z <= 100)%Z).
  { apply Qabs_Qle_condition in Hw. destruct Hw as [Hlo Hhi].
    pose proof (@round_half_even_le (wq / nu0 * 100) 100 Hhi).
    pose proof (@round_half_even_ge (wq / nu0 * 100) (-100) Hlo).
    fold z in H, H0. lia. }
  exists (Z.abs z), k. split; [exact Hrow|]. split; [exact Hcol|].
  split; [split; [exact Hz|exact Hk]|].
  destruct (table_row Ht Hz) as [Hr Hlen].
  unfold delta_w_custom. rewrite Hfirst. simpl.
  unfold lookup. rewrite Hint. simpl.
  rewrite truncate_inject_Z, Hr. simpl.
  rewrite (@tensor_index_nonneg _ _ k 0) by (rewrite Hlen; lia).
  reflexivity.
Qed.

Lemma lookup_indices_in_table_for_scaled_weights_witness :
  exists i k,
    row_index (1 # 2) (Fin (1 # 4)) = inr i /\
    column_index (Fin 7) = inr k /\
    in_table i k /\
    delta_w_custom zeros_101_120 (1 # 2) [[Fin (1 # 4)]] [[Fin 7]] =
      inr [[Fin (nth (Z.to_nat k) (nth (Z.to_nat i) zeros_101_120 []) 0)]].
Proof.
  apply (@lookup_indices_in_table_for_scaled_weights
           zeros_101_120 (1 # 2) (1 # 4) (Fin 7)).
  - exact zeros_101_120_shape.
  - intros E. discriminate E.
  - intros E. discriminate E.
  - discriminate.
  - intros d E; injection E as <-. intros E. discriminate E.
Defined.

End CalibratedLookup.

(** * Further properties of the rules *)

(** ** The shared step on its own *)

Section SharedStepMore.

Local Open Scope R_scope.

Import LearningRule.

Lemma forall_entries_map (P : R -> Prop) (f : R -> R) (m : matrix) :
  (forall a, P (f a)) -> Forall (Forall P) (map (map f) m).
Proof.
  intros H.
  apply Forall_map, Forall_forall; intros row _.
  apply Forall_map, Forall_forall; intros a _. apply H.
Qed.

(** X1: a NoOp update only decays: it leaves [(1 - weight_decay) * w],
    never clamped, whatever the bounds of the connection, and it leaves the
    connection as it was when the decay is zero. *)
Theorem noop_update_only_decays (r : rule) (c : call) (cn : connection) :
  cls r = cls_NoOp ->
  NoOp.update r c cn = set_w cn (mscale (1 - weight_decay r) (w cn)) /\
  (weight_decay r = 0 -> NoOp.update r c cn = cn).
Proof.
  intros Hcls. unfold NoOp.update.
  rewrite shared_step_unfolded. unfold isinstance_NoOp. rewrite Hcls.
  rewrite orb_true_r. split; [reflexivity|].
  intros ->. rewrite Rminus_0_r, mscale_one. apply set_w_same.
Qed.

Lemma noop_update_only_decays_witness :
  let r := Rule cls_NoOp (1, 1) mean_dim0 (1 / 2) 20 20 25 5 in
  let c := Call (Nodes 1 1 [[1]] [[2]] [[0]]) (Nodes 1 1 [[1]] [[3]] [[0]]) [] in
  let cn := Connection [[5]] (Lo 0) (Hi 1) 1 in
  NoOp.update r c cn = set_w cn (mscale (1 - weight_decay r) (w cn)).
Proof.
  intros r c cn.
  apply (proj1 (@noop_update_only_decays r c cn eq_refl)).
Defined.

(** X2: after the shared step of any rule but NoOp, no weight exceeds a
    finite [wmax], whatever [wmin] is (also a [wmin] above [wmax]); no weight
    is below a finite [wmin] when [wmax] is infinite or at least [wmin]. *)
Theorem shared_step_respects_each_finite_bound (r : rule) (c : connection) :
  isinstance_NoOp r = false ->
  (forall hi, wmax c = Hi hi ->
              Forall (Forall (fun a => a <= hi)) (w (update r c))) /\
  (forall lo, wmin c = Lo lo ->
              match wmax c with
              | PosInf => True
              | Hi hi => lo <= hi
              end ->
              Forall (Forall (fun a => lo <= a)) (w (update r c))).
Proof.
  intros Hno. rewrite shared_step_unfolded, Hno, orb_false_r.
  split.
  - intros hi Hhi. rewrite Hhi, andb_false_r. simpl.
    unfold clamp_. apply forall_entries_map. intros a.
    unfold clamp1. apply Rmin_r.
  - intros lo Hlo Hord. rewrite Hlo. simpl.
    unfold clamp_. apply forall_entries_map. intros a.
    unfold clamp1. destruct (wmax c) as [|hi].
    + apply Rmax_r.
    + apply Rmin_glb; [apply Rmax_r|exact Hord].
Qed.

Lemma shared_step_respects_each_finite_bound_witness :
  let r := Rule cls_Hebbian (1, 1) mean_dim0 0 20 20 25 5 in
  let c := Connection [[5; -7]] (Lo 0) PosInf 1 in
  Forall (Forall (fun a => 0 <= a)) (w (update r c)).
Proof.
  intros r c.
  apply (proj2 (@shared_step_respects_each_finite_bound r c eq_refl) 0 eq_refl I).
Defined.

Lemma shared_step_within (r : rule) (c : connection) (lo hi : R) :
  isinstance_NoOp r = false ->
  wmin c = Lo lo -> wmax c = Hi hi -> lo <= hi ->
  within lo hi (w (update r c)).
Proof.
  intros Hno Hlo Hhi Hord. rewrite shared_step_unfolded, Hno, Hlo, Hhi. simpl.
  now apply clamp_in_bounds.
Qed.

End SharedStepMore.

(** ** Every rule closes with the shared step *)

Section RulesAndBounds.

Local Open Scope R_scope.

Import LearningRule.

(** One Rmax call that is given a reward. *)
Lemma rmax_step (r : rule) (c : call) (st : Rmax.state) (reward : R) :
  kwargs_find "reward" (kw c) = Some reward ->
  exists st' trace',
    Rmax.connection_update r c st = (inr tt, st') /\
    Rmax.eligibility_trace st' = Some trace' /\
    trace' =
      madd (mscale (1 - dt (Rmax.conn st) / tc_e_trace r) (Rmax.found_trace st))
           (ger (view_flat (x (source c)))
                (Rmax.bias_corrected r (Rmax.conn st)
                   (view_flat (s (target c)))
                   (view_flat (s_prob (target c))))) /\
    Rmax.conn st' =
      update r
        (set_w (Rmax.conn st)
           (madd (w (Rmax.conn st)) (mscale (nu0 r * reward) trace'))).
Proof.
  intros Hrw.
  unfold Rmax.connection_update, Py.kwargs_item. rewrite Hrw.
  unfold Rmax.found_trace, Rmax.zero_like, Rmax.bias_corrected.
  destruct st as [cn [tr|]];
    Rmax.exec; (eexists; eexists; split; [reflexivity|]); Rmax.exec;
    rewrite mmul_scalar_mscale, mul_row_by_column_ger, vsub_quotient;
    repeat split; reflexivity.
Qed.

(** X3: with finite bounds [wmin <= wmax], every weight lies in
    [wmin, wmax] after an update of Hebbian, PostPre, MSTDP, MSTDPET or Rmax
    (the last three given a reward), whatever the weights, inputs, learning
    rates, decay and reduction were. *)
Theorem rules_keep_weights_within_finite_bounds
    (r : rule) (c : call) (lo hi : R) :
  cls r <> cls_NoOp ->
  lo <= hi ->
  (forall cn,
      wmin cn = Lo lo -> wmax cn = Hi hi ->
      within lo hi (w (Hebbian.connection_update r c cn)) /\
      within lo hi (w (PostPre.connection_update r c cn))) /\
  (forall reward,
      kwargs_find "reward" (kw c) = Some reward ->
      (forall st,
          wmin (MSTDP.conn st) = Lo lo -> wmax (MSTDP.conn st) = Hi hi ->
          within lo hi
            (w (MSTDP.conn (snd (MSTDP.connection_update r c st))))) /\
      (forall st,
          wmin (MSTDPET.conn st) = Lo lo -> wmax (MSTDPET.conn st) = Hi hi ->
          within lo hi
            (w (MSTDPET.conn (snd (MSTDPET.connection_update r c st))))) /\
      (forall st,
          wmin (Rmax.conn st) = Lo lo -> wmax (Rmax.conn st) = Hi hi ->
          within lo hi
            (w (Rmax.conn (snd (Rmax.connection_update r c st)))))).
Proof.
  intros Hcls Hord.
  assert (Hno : isinstance_NoOp r = false).
  { unfold isinstance_NoOp. destruct (cls r); auto. now elim Hcls. }
  split; [|intros reward Hrw; repeat split].
  - intros cn Hlo Hhi. split.
    + unfold Hebbian.connection_update. now apply shared_step_within.
    + unfold PostPre.connection_update.
      destruct (truthy (nu0 r)), (truthy (nu1 r));
        now apply shared_step_within.
  - intros st Hlo Hhi.
    destruct (mstdp_step r c st Hrw) as (st' & Hs & Hconn & _).
    rewrite Hs; simpl. rewrite Hconn. unfold MSTDP.connection_after.
    now apply shared_step_within.
  - intros st Hlo Hhi.
    destruct (mstdpet_step r c st Hrw) as (st' & Hs & _ & Hconn & _).
    rewrite Hs; simpl. rewrite Hconn. now apply shared_step_within.
  - intros st Hlo Hhi.
    destruct (rmax_step r c st Hrw) as (st' & tr & Hs & _ & _ & Hconn).
    rewrite Hs; simpl. rewrite Hconn. now apply shared_step_within.
Qed.

Lemma rules_keep_weights_within_finite_bounds_witness :
  let r := Rule cls_MSTDP (1, 1) mean_dim0 0 20 20 25 5 in
  let c :=
    Call (Nodes 1 1 [[1]] [[0]] [[0]]) (Nodes 1 1 [[1]] [[0]] [[0]])
         [("reward"%string, 1)] in
  within (-1) 1
    (w (MSTDP.conn
          (snd (MSTDP.connection_update r c
                  (MSTDP.fresh (Connection [[5]] (Lo (-1)) (Hi 1) 1)))))).
Proof.
  intros r c.
  assert (Hcls : cls r <> cls_NoOp) by discriminate.
  assert (Hord : -1 <= 1) by lra.
  exact (proj1 (proj2 (@rules_keep_weights_within_finite_bounds
                         r c (-1) 1 Hcls Hord) 1 eq_refl)
           (MSTDP.fresh (Connection [[5]] (Lo (-1)) (Hi 1) 1))
           eq_refl eq_refl).
Defined.

(** X4: a PostPre update with both learning rates zero, which is what the
    constructor sets when no [nu] is given, is the shared step alone: the
    spikes and traces are not used. *)
Theorem postpre_with_zero_rates_is_the_shared_step
    (r : rule) (c : call) (cn : connection) :
  nu r = (0, 0) ->
  PostPre.connection_update r c cn = update r cn.
Proof.
  intros Hnu. unfold PostPre.connection_update, nu0, nu1, truthy.
  rewrite Hnu; simpl.
  destruct (Req_dec_T 0 0) as [_|N]; [reflexivity|now elim N].
Qed.

Lemma postpre_with_zero_rates_is_the_shared_step_witness :
  let r := Rule cls_PostPre (0, 0) mean_dim0 0 20 20 25 5 in
  let c := Call (Nodes 1 1 [[1]] [[2]] [[0]]) (Nodes 1 1 [[1]] [[3]] [[0]]) [] in
  let cn := Connection [[5]] (Lo 0) (Hi 1) 1 in
  PostPre.connection_update r c cn = update r cn.
Proof.
  intros r c cn.
  apply (@postpre_with_zero_rates_is_the_shared_step r c cn eq_refl).
Defined.

Lemma shared_step_of_class_and_decay (r1 r2 : rule) (c : connection) :
  isinstance_NoOp r1 = isinstance_NoOp r2 ->
  weight_decay r1 = weight_decay r2 ->
  update r1 c = update r2 c.
Proof. intros H1 H2. unfold update. now rewrite H1, H2. Qed.

Lemma vsub_vscale_opp (c : R) (a u : vector) :
  vsub a (vscale (- c) u) = vadd a (vscale c u).
Proof.
  unfold vsub, vadd, vscale.
  revert u; induction a as [|p a IH]; intros [|q u]; simpl; auto.
  f_equal; [ring|apply IH].
Qed.

Lemma msub_mscale_opp (c : R) (a u : matrix) :
  msub a (mscale (- c) u) = madd a (mscale c u).
Proof.
  unfold msub, madd, mscale.
  revert u; induction a as [|p a IH]; intros [|q u]; simpl; auto.
  f_equal; [apply vsub_vscale_opp|apply IH].
Qed.

(** X5: PostPre differs from Hebbian in the sign of the pre-synaptic term
    only: with both learning rates nonzero, the PostPre update with rates
    [(-a, b)] leaves what the Hebbian update with rates [(a, b)] leaves. *)
Theorem postpre_is_hebbian_with_negated_first_rate
    (r : rule) (c : call) (cn : connection) :
  cls r = cls_Hebbian ->
  nu0 r <> 0 ->
  nu1 r <> 0 ->
  PostPre.connection_update (PostPre.postpre_twin r) c cn =
  Hebbian.connection_update r c cn.
Proof.
  intros Hcls H0 H1.
  unfold PostPre.connection_update, Hebbian.connection_update, truthy.
  change (nu0 (PostPre.postpre_twin r)) with (- nu0 r).
  change (nu1 (PostPre.postpre_twin r)) with (nu1 r).
  change (reduction (PostPre.postpre_twin r)) with (reduction r).
  destruct (Req_dec_T (- nu0 r) 0) as [E|_]; [lra|].
  destruct (Req_dec_T (nu1 r) 0) as [E|_]; [now elim H1|].
  cbv beta iota zeta delta [set_w w wmin wmax dt].
  rewrite msub_mscale_opp.
  apply shared_step_of_class_and_decay; [|reflexivity].
  unfold isinstance_NoOp. now rewrite Hcls.
Qed.

Lemma postpre_is_hebbian_with_negated_first_rate_witness :
  let r := Rule cls_Hebbian (2, 3) mean_dim0 0 20 20 25 5 in
  let c := Call (Nodes 1 1 [[1]] [[2]] [[0]]) (Nodes 1 1 [[1]] [[3]] [[0]]) [] in
  let cn := Connection [[5]] (Lo 0) (Hi 1) 1 in
  PostPre.connection_update (PostPre.postpre_twin r) c cn =
  Hebbian.connection_update r c cn.
Proof.
  intros r c cn.
  apply (@postpre_is_hebbian_with_negated_first_rate r c cn);
    [reflexivity| |]; unfold nu0, nu1; simpl; lra.
Defined.

End RulesAndBounds.

(** ** The reward-modulated rules, call by call *)

Section RewardRulesMore.

Local Open Scope R_scope.

Lemma madd_mscale_minus_one (a u : matrix) :
  madd a (mscale (-1) u) = msub a u.
Proof.
  unfold madd, msub, mscale, vadd, vsub, vscale.
  revert u; induction a as [|p a IH]; intros [|q u]; simpl; auto.
  f_equal; [|apply IH].
  clear. revert q; induction p as [|e p IH]; intros [|e' q]; simpl; auto.
  f_equal; [ring|apply IH].
Qed.

(** X6: a rewarded MSTDP call given neither [a_plus] nor [a_minus] replaces
    [p_plus] by [exp(-dt / tc_plus) * p_plus + pre_spike] and [p_minus] by
    [exp(-dt / tc_minus) * p_minus - post_spike] (the defaults are 1 and
    -1), both starting from zeros on the first call. *)
Theorem mstdp_traces_follow_the_recurrence
    (r : rule) (c : call) (st : MSTDP.state) (reward : R) :
  kwargs_find "reward" (kw c) = Some reward ->
  kwargs_find "a_plus" (kw c) = None ->
  kwargs_find "a_minus" (kw c) = None ->
  exists st',
    MSTDP.connection_update r c st = (inr tt, st') /\
    MSTDP.p_plus st' =
      Some (madd
              (mscale (exp (- dt (MSTDP.conn st) / tc_plus r))
                 match MSTDP.p_plus st with
                 | Some p => p
                 | None => mzeros (batch_size (source c)) (n (source c))
                 end)
              (s (source c))) /\
    MSTDP.p_minus st' =
      Some (msub
              (mscale (exp (- dt (MSTDP.conn st) / tc_minus r))
                 match MSTDP.p_minus st with
                 | Some p => p
                 | None => mzeros (batch_size (source c)) (n (target c))
                 end)
              (s (target c))).
Proof.
  intros Hrw Hp Hm.
  unfold MSTDP.connection_update, Py.kwargs_item, kwargs_get.
  rewrite Hrw, Hp, Hm.
  destruct st as [cn [pp|] [pm|] [e|]];
    MSTDP.exec; (eexists; split; [reflexivity|]); MSTDP.exec;
    rewrite !mmul_scalar_mscale, mscale_one, madd_mscale_minus_one;
    split; reflexivity.
Qed.

Lemma mstdp_traces_follow_the_recurrence_witness :
  let r := Rule cls_MSTDP (1, 1) mean_dim0 0 20 20 25 5 in
  let c :=
    Call (Nodes 1 1 [[1]] [[0]] [[0]]) (Nodes 1 1 [[1]] [[0]] [[0]])
         [("reward"%string, 1)] in
  let st := MSTDP.fresh (Connection [[5]] NegInf PosInf 1) in
  exists st',
    MSTDP.connection_update r c st = (inr tt, st') /\
    MSTDP.p_minus st' =
      Some (msub (mscale (exp (- 1 / 20)) (mzeros 1 1)) [[1]]).
Proof.
  intros r c st.
  destruct (@mstdp_traces_follow_the_recurrence r c st 1)
    as (st' & Hs & _ & Hm); try reflexivity.
  exists st'. auto.
Defined.

Lemma vscale_vzeros (c : R) (m : nat) : vscale c (vzeros m) = vzeros m.
Proof.
  unfold vscale, vzeros. induction m; simpl; f_equal; auto. ring.
Qed.

Lemma mscale_mzeros (c : R) (k m : nat) : mscale c (mzeros k m) = mzeros k m.
Proof.
  unfold mscale, mzeros. induction k; simpl; f_equal; auto.
  apply vscale_vzeros.
Qed.

Lemma vadd_vzeros (v : vector) : vadd v (vzeros (length v)) = v.
Proof.
  unfold vadd, vzeros. induction v; simpl; f_equal; auto. ring.
Qed.

Lemma madd_mzeros (a : matrix) (m : nat) :
  Forall (fun row => length row = m) a ->
  madd a (mzeros (length a) m) = a.
Proof.
  unfold madd, mzeros. induction 1 as [|row a Hrow _ IH]; simpl; auto.
  f_equal; [|exact IH]. rewrite <- Hrow. apply vadd_vzeros.
Qed.

Lemma madd_mzeros_mzeros (k m : nat) :
  madd (mzeros k m) (mzeros k m) = mzeros k m.
Proof.
  rewrite <- (repeat_length (vzeros m) k) at 2.
  apply madd_mzeros. apply Forall_forall; intros row Hrow.
  apply repeat_spec in Hrow. subst. apply repeat_length.
Qed.

(** X7: the first rewarded MSTDPET call on a rule object learns nothing: the
    eligibility trace it leaves is still all zeros and the connection it
    leaves is what the shared step alone makes of it. *)
Theorem mstdpet_first_call_learns_nothing
    (r : rule) (c : call) (cn : connection) (reward : R) :
  rectangular (w cn) ->
  kwargs_find "reward" (kw c) = Some reward ->
  exists st',
    MSTDPET.connection_update r c (MSTDPET.fresh cn) = (inr tt, st') /\
    MSTDPET.eligibility_trace st' = Some (MSTDPET.zero_like cn) /\
    MSTDPET.conn st' = LearningRule.update r cn.
Proof.
  intros Hrect Hrw.
  destruct (mstdpet_step r c (MSTDPET.fresh cn) Hrw)
    as (st' & Hs & Htr & Hconn & _).
  exists st'. split; [exact Hs|].
  assert (Hz : MSTDPET.filter_step r cn (MSTDPET.zero_like cn)
                 (MSTDPET.zero_like cn) = MSTDPET.zero_like cn).
  { unfold MSTDPET.filter_step, MSTDPET.zero_like.
    now rewrite !mscale_mzeros, madd_mzeros_mzeros. }
  simpl in Htr, Hconn.
  unfold MSTDPET.found_trace, MSTDPET.found_eligibility in Htr.
  simpl in Htr. rewrite Hz in Htr.
  split; [exact Htr|].
  rewrite Hconn, Htr. simpl.
  unfold MSTDPET.zero_like. rewrite mscale_mzeros. simpl.
  rewrite (madd_mzeros Hrect). now rewrite set_w_same.
Qed.

Lemma mstdpet_first_call_learns_nothing_witness :
  let r := Rule cls_MSTDPET (1, 1) mean_dim0 0 20 20 25 5 in
  let c :=
    Call (Nodes 1 1 [[1]] [[0]] [[0]]) (Nodes 1 1 [[1]] [[0]] [[0]])
         [("reward"%string, 1)] in
  let cn := Connection [[5]] NegInf PosInf 1 in
  exists st',
    MSTDPET.connection_update r c (MSTDPET.fresh cn) = (inr tt, st') /\
    MSTDPET.conn st' = LearningRule.update r cn.
Proof.
  intros r c cn.
  destruct (@mstdpet_first_call_learns_nothing r c cn 1)
    as (st' & Hs & _ & Hc).
  - repeat constructor.
  - reflexivity.
  - exists st'. auto.
Defined.

Lemma zip_with_ext {A B C : Type} (f g : A -> B -> C) (l1 : list A)
    (l2 : list B) :
  (forall a b, f a b = g a b) -> zip_with f l1 l2 = zip_with g l1 l2.
Proof.
  intros H. revert l2; induction l1 as [|a l1 IH]; intros [|b l2]; simpl;
    auto. now rewrite H, IH.
Qed.

(** X8: with [tc_c = 0] the increment of the Rmax eligibility trace is the
    outer product of [pre_trace] with [post_spike - post_spike_prob]. *)
Theorem rmax_increment_at_zero_tc_c
    (r : rule) (c : call) (st : Rmax.state) (reward : R) :
  tc_c r = 0 ->
  kwargs_find "reward" (kw c) = Some reward ->
  exists st',
    Rmax.connection_update r c st = (inr tt, st') /\
    Rmax.eligibility_trace st' =
      Some (madd
              (mscale (1 - dt (Rmax.conn st) / tc_e_trace r)
                 (Rmax.found_trace st))
              (ger (view_flat (x (source c)))
                   (vsub (view_flat (s (target c)))
                         (view_flat (s_prob (target c)))))).
Proof.
  intros Htc Hrw.
  destruct (rmax_step r c st Hrw) as (st' & tr & Hs & Ht & Htr & _).
  exists st'. split; [exact Hs|]. rewrite Ht, Htr. do 3 f_equal.
  unfold Rmax.bias_corrected, vsub. apply zip_with_ext; intros sp q.
  rewrite Htc. unfold Rdiv. rewrite Rmult_0_l, Rmult_0_l, Rplus_0_r, Rinv_1.
  ring.
Qed.

Lemma rmax_increment_at_zero_tc_c_witness :
  let r := Rule cls_Rmax (1, 1) mean_dim0 0 20 20 25 0 in
  let c :=
    Call (Nodes 1 1 [[1]] [[2]] [[0]]) (Nodes 1 1 [[1]] [[0]] [[1 / 2]])
         [("reward"%string, 3)] in
  let st := Rmax.State (Connection [[5]] (Lo 0) (Hi 1) 1) None in
  exists st',
    Rmax.connection_update r c st = (inr tt, st') /\
    Rmax.eligibility_trace st' =
      Some (madd
              (mscale (1 - dt (Rmax.conn st) / tc_e_trace r)
                 (Rmax.found_trace st))
              (ger (view_flat (x (source c)))
                   (vsub (view_flat (s (target c)))
                         (view_flat (s_prob (target c)))))).
Proof.
  intros r c st.
  apply (@rmax_increment_at_zero_tc_c r c st 3); reflexivity.
Defined.

(** X9: a call that raises for want of a reward leaves nothing behind that a
    later call could notice: the next call, on populations of the same sizes,
    does exactly what it would have done without the failed call. *)
Theorem failed_call_does_not_affect_the_next
    (r : rule) (c0 c : call) :
  kwargs_find "reward" (kw c0) = None ->
  batch_size (source c0) = batch_size (source c) ->
  n (source c0) = n (source c) ->
  n (target c0) = n (target c) ->
  (forall st,
      MSTDP.connection_update r c (snd (MSTDP.connection_update r c0 st)) =
      MSTDP.connection_update r c st) /\
  (forall st,
      MSTDPET.connection_update r c
        (snd (MSTDPET.connection_update r c0 st)) =
      MSTDPET.connection_update r c st) /\
  (forall st,
      Rmax.connection_update r c (snd (Rmax.connection_update r c0 st)) =
      Rmax.connection_update r c st).
Proof.
  intros H0 Hb Hs Ht. repeat split; intros st.
  - unfold MSTDP.connection_update, Py.kwargs_item. rewrite H0, Hb, Hs, Ht.
    destruct (kwargs_find "reward" (kw c));
      destruct st as [cn [pp|] [pm|] [e|]]; MSTDP.exec; reflexivity.
  - unfold MSTDPET.connection_update, Py.kwargs_item. rewrite H0, Hs, Ht.
    destruct (kwargs_find "reward" (kw c));
      destruct st as [cn [pp|] [pm|] [e|] [tr|]]; MSTDPET.exec; reflexivity.
  - unfold Rmax.connection_update, Py.kwargs_item. rewrite H0.
    destruct (kwargs_find "reward" (kw c));
      destruct st as [cn [tr|]]; Rmax.exec; reflexivity.
Qed.

Lemma failed_call_does_not_affect_the_next_witness :
  let r := Rule cls_MSTDP (1, 1) mean_dim0 0 20 20 25 5 in
  let c0 :=
    Call (Nodes 1 1 [[0]] [[0]] [[0]]) (Nodes 1 1 [[0]] [[0]] [[0]]) [] in
  let c :=
    Call (Nodes 1 1 [[1]] [[0]] [[0]]) (Nodes 1 1 [[1]] [[0]] [[0]])
         [("reward"%string, 1)] in
  let st := MSTDP.fresh (Connection [[5]] NegInf PosInf 1) in
  MSTDP.connection_update r c (snd (MSTDP.connection_update r c0 st)) =
  MSTDP.connection_update r c st.
Proof.
  intros r c0 c st.
  apply (proj1 (@failed_call_does_not_affect_the_next
                  r c0 c eq_refl eq_refl eq_refl eq_refl)).
Defined.

End RewardRulesMore.

(** ** More on the calibrated lookup *)

Section CalibratedLookupMore.

Import WeightDependentPostPre.

Local Open Scope Z_scope.
Local Open Scope Q_scope.

Lemma Qle_bool_false (a b : Q) : b < a -> Qle_bool a b = false.
Proof.
  intros H. apply not_true_is_false. intros E.
  apply Qle_bool_iff in E. apply (Qlt_not_le _ _ H E).
Qed.

Lemma Qle_bool_true (a b : Q) : a <= b -> Qle_bool a b = true.
Proof. apply Qle_bool_iff. Qed.

Lemma Qeq_bool_true (a b : Q) : a == b -> Qeq_bool a b = true.
Proof. apply Qeq_bool_iff. Qed.

Lemma Qeq_bool_false (a b : Q) : ~ a == b -> Qeq_bool a b = false.
Proof.
  intros H. apply not_true_is_false. intros E. now apply Qeq_bool_iff in E.
Qed.

(** X10: with [nu[0] = 0], which is what the constructor sets when no [nu]
    is given, the lookup raises at the first weight, for every non-empty
    weight matrix: a value error when that weight is zero or NaN, an overflow
    error otherwise. *)
Theorem lookup_raises_when_nu0_is_zero
    (STDP_base : list (list Q)) (nu0 : Q) (wv : pyfloat)
    (w_row : list pyfloat) (w delta : fmatrix) :
  nu0 == 0 ->
  delta_w_custom STDP_base nu0 ((wv :: w_row) :: w) delta =
    inl match wv with
        | Fin q => if Qeq_bool q 0 then ValueError else OverflowError
        | NaN => ValueError
        | PInf | NInf => OverflowError
        end.
Proof.
  intros Hnu. unfold delta_w_custom, round_to_percent. simpl.
  unfold round_entry at 1.
  assert (E0 : Qeq_bool nu0 0 = true) by now apply Qeq_bool_true.
  assert (E1 : Qle_bool 0 nu0 = true).
  { apply Qle_bool_true. rewrite Hnu. apply Qle_refl. }
  destruct wv as [q| | |]; simpl; rewrite ?E0, ?E1; simpl; try reflexivity.
  destruct (Qeq_bool q 0); simpl; [reflexivity|].
  destruct (Qle_bool q 0); reflexivity.
Qed.

Lemma lookup_raises_when_nu0_is_zero_witness :
  delta_w_custom zeros_101_120 0 [[Fin (1 # 2)]] [[Fin 3]] = inl OverflowError.
Proof.
  apply (@lookup_raises_when_nu0_is_zero
           zeros_101_120 0 (Fin (1 # 2)) [] [] [[Fin 3]]).
  reflexivity.
Defined.

(** A float that is NaN is never turned into an index. *)
Lemma lookup_of_nan (STDP_base : list (list Q)) (first_index : pyfloat) (v : Q) :
  lookup STDP_base first_index (fadd NaN 60) <> inr v.
Proof.
  unfold lookup. simpl.
  destruct (py_int first_index) as [e|i]; simpl; [discriminate|].
  destruct (tensor_index STDP_base i) as [e|row]; simpl; discriminate.
Qed.

(** X11: a NaN among the transformed trace products (the logarithm of a
    negative product) is not stored into the update: when the weight matrix
    has an entry at the position of the NaN, the lookup raises. *)
Theorem nan_makes_the_lookup_raise
    (STDP_base : list (list Q)) (nu0 : Q) (w delta : fmatrix) (i k : nat)
    (w_row delta_row : list pyfloat) (wv : pyfloat) :
  nth_error w i = Some w_row ->
  nth_error w_row k = Some wv ->
  nth_error delta i = Some delta_row ->
  nth_error delta_row k = Some NaN ->
  exists e, delta_w_custom STDP_base nu0 w delta = inl e.
Proof.
  intros Hw Hwv Hd Hnan.
  destruct (delta_w_custom STDP_base nu0 w delta) as [e|out] eqn:E;
    [now exists e|].
  exfalso.
  destruct (@delta_w_custom_per_synapse _ _ _ _ _ _ _ _ _ E Hw Hwv)
    as (delta_row' & dv & out_row & fi & v & Hd' & Hdv & _ & Hl & _).
  rewrite Hd in Hd'. injection Hd' as <-.
  rewrite Hnan in Hdv. injection Hdv as <-.
  now apply lookup_of_nan in Hl.
Qed.

Lemma nan_makes_the_lookup_raise_witness :
  exists e,
    delta_w_custom zeros_101_120 1 [[Fin (1 # 2); Fin 0]] [[Fin 3; NaN]] =
    inl e.
Proof.
  apply (@nan_makes_the_lookup_raise
           zeros_101_120 1 [[Fin (1 # 2); Fin 0]] [[Fin 3; NaN]] 0 1
           [Fin (1 # 2); Fin 0] [Fin 3; NaN] (Fin 0));
    reflexivity.
Defined.

Lemma truncate_comp (a b : Q) : a == b -> truncate a = truncate b.
Proof.
  intros H. unfold truncate. rewrite H.
  destruct (Qle_bool 0 b); [now rewrite H|].
  unfold Qceiling. now rewrite H.
Qed.

(** X12: a second index of exactly 120 passes the guard and is used as the
    column index, one past the last column of the table: the lookup raises an
    index error. *)
Theorem second_index_120_raises_index_error
    (STDP_base : list (list Q)) (nu0 d : Q) (wv : pyfloat) (i : Z) :
  table_shape STDP_base ->
  row_index nu0 wv = inr i ->
  (0 <= i <= 100)%Z ->
  d + 60 == 120 ->
  column_index (Fin d) = inr 120%Z /\
  delta_w_custom STDP_base nu0 [[wv]] [[Fin d]] = inl IndexError.
Proof.
  intros Ht Hi Hrange Hd.
  destruct (table_row Ht Hrange) as [Hrow Hlen].
  destruct (round_to_percent_row _ _ Hi) as (first_index & Hfirst & Hint).
  assert (Hg : guard (Fin (d + 60)) = Fin (d + 60)).
  { unfold guard, fgt, flt.
    rewrite (@Qle_bool_true (d + 60) 120) by (rewrite Hd; apply Qle_refl).
    rewrite (@Qle_bool_true 0 (d + 60)) by (rewrite Hd; discriminate).
    reflexivity. }
  assert (Htr : truncate (d + 60) = 120%Z).
  { rewrite (truncate_comp Hd). reflexivity. }
  split.
  - unfold column_index, fadd. rewrite Hg. simpl. now rewrite Htr.
  - unfold delta_w_custom. rewrite Hfirst. simpl.
    unfold lookup. rewrite Hg, Hint. simpl. rewrite Hrow. simpl.
    rewrite Htr. rewrite tensor_index_beyond by (rewrite Hlen; lia).
    reflexivity.
Qed.

Lemma second_index_120_raises_index_error_witness :
  delta_w_custom zeros_101_120 (1 # 2) [[Fin (1 # 4)]] [[Fin 60]] =
  inl IndexError.
Proof.
  apply (@second_index_120_raises_index_error
           zeros_101_120 (1 # 2) 60 (Fin (1 # 4)) 50%Z).
  - exact zeros_101_120_shape.
  - reflexivity.
  - lia.
  - reflexivity.
Defined.

(** X13: a second index inside of the table is truncated, not rounded: for
    [0 <= delta + 60 < 120] the lookup returns the entry in column
    [floor(delta + 60)] of the row that the first index selects. *)
Theorem in_range_second_index_is_truncated
    (STDP_base : list (list Q)) (nu0 d : Q) (wv : pyfloat) (i : Z) :
  table_shape STDP_base ->
  row_index nu0 wv = inr i ->
  (0 <= i <= 100)%Z ->
  0 <= d + 60 ->
  d + 60 < 120 ->
  column_index (Fin d) = inr (Qfloor (d + 60)) /\
  delta_w_custom STDP_base nu0 [[wv]] [[Fin d]] =
    inr [[Fin (nth (Z.to_nat (Qfloor (d + 60)))
                 (nth (Z.to_nat i) STDP_base []) 0)]].
Proof.
  intros Ht Hi Hrange Hlo Hhi.
  destruct (table_row Ht Hrange) as [Hrow Hlen].
  destruct (round_to_percent_row _ _ Hi) as (first_index & Hfirst & Hint).
  assert (Hg : guard (Fin (d + 60)) = Fin (d + 60)).
  { unfold guard, fgt, flt.
    rewrite (@Qle_bool_true (d + 60) 120) by now apply Qlt_le_weak.
    rewrite (@Qle_bool_true 0 (d + 60)) by exact Hlo.
    reflexivity. }
  assert (Htr : truncate (d + 60) = Qfloor (d + 60)).
  { unfold truncate. now rewrite (@Qle_bool_true 0 (d + 60)). }
  assert (Hk : (0 <= Qfloor (d + 60) < 120)%Z).
  { split.
    - change 0%Z with (Qfloor 0). now apply Qfloor_resp_le.
    - pose proof (Qfloor_le (d + 60)) as Hf.
      assert (Hz : inject_Z (Qfloor (d + 60)) < inject_Z 120).
      { eapply Qle_lt_trans; [exact Hf|exact Hhi]. }
      rewrite <- Zlt_Qlt in Hz. exact Hz. }
  split.
  - unfold column_index, fadd. rewrite Hg. simpl. now rewrite Htr.
  - unfold delta_w_custom. rewrite Hfirst. simpl.
    unfold lookup. rewrite Hg, Hint. simpl. rewrite Hrow. simpl.
    rewrite Htr.
    rewrite (@tensor_index_nonneg _ _ (Qfloor (d + 60)) 0)
      by (rewrite Hlen; lia).
    reflexivity.
Qed.

Lemma in_range_second_index_is_truncated_witness :
  column_index (Fin (119 # 2)) = inr 119%Z /\
  delta_w_custom zeros_101_120 (1 # 2) [[Fin (1 # 4)]] [[Fin (119 # 2)]] =
    inr [[Fin (nth 119 (nth 50 zeros_101_120 []) 0)]].
Proof.
  apply (@in_range_second_index_is_truncated
           zeros_101_120 (1 # 2) (119 # 2) (Fin (1 # 4)) 50%Z).
  - exact zeros_101_120_shape.
  - reflexivity.
  - lia.
  - discriminate.
  - reflexivity.
Defined.

Lemma tensor_index_In {A : Type} (t : list A) (i : Z) (a : A) :
  tensor_index t i = inr a -> In a t.
Proof.
  unfold tensor_index.
  destruct (_ && _)%bool; [|discriminate].
  destruct (nth_error t _) as [b|] eqn:E; [|discriminate].
  intros H; injection H as <-. eapply nth_error_In; eassumption.
Qed.

Lemma lookup_In (STDP_base : list (list Q)) (first_index second_index : pyfloat)
    (v : Q) :
  lookup STDP_base first_index second_index = inr v ->
  exists row, In row STDP_base /\ In v row.
Proof.
  unfold lookup.
  destruct (py_int first_index) as [e|i]; simpl; [discriminate|].
  destruct (tensor_index STDP_base i) as [e|row] eqn:Erow; simpl;
    [discriminate|].
  destruct (py_int (guard second_index)) as [e|k]; simpl; [discriminate|].
  intros H. exists row. split; eapply tensor_index_In; eassumption.
Qed.

(** X14: whatever the transformed trace products are (infinities included),
    every entry that a returning lookup writes at a position of the weight
    matrix is a finite number taken from the table. *)
Theorem lookup_writes_table_entries
    (STDP_base : list (list Q)) (nu0 : Q) (w delta out : fmatrix) (i k : nat)
    (w_row : list pyfloat) (wv : pyfloat) :
  delta_w_custom STDP_base nu0 w delta = inr out ->
  nth_error w i = Some w_row ->
  nth_error w_row k = Some wv ->
  exists out_row v row,
    nth_error out i = Some out_row /\
    nth_error out_row k = Some (Fin v) /\
    In row STDP_base /\ In v row.
Proof.
  intros E Hw Hwv.
  destruct (@delta_w_custom_per_synapse _ _ _ _ _ _ _ _ _ E Hw Hwv)
    as (delta_row & dv & out_row & fi & v & _ & _ & _ & Hl & Ho & Hv).
  destruct (lookup_In _ _ _ Hl) as (row & Hrow & Hin).
  exists out_row, v, row. auto.
Qed.

Lemma lookup_writes_table_entries_witness :
  exists out_row v row,
    nth_error [[Fin 0]] 0 = Some out_row /\
    nth_error out_row 0 = Some (Fin v) /\
    In row zeros_101_120 /\ In v row.
Proof.
  apply (@lookup_writes_table_entries
           zeros_101_120 (1 # 2) [[Fin (1 # 4)]] [[NInf]] [[Fin 0]] 0 0
           [Fin (1 # 4)] (Fin (1 # 4)));
    reflexivity.
Defined.

(** The floor of a rational that lies between two neighbouring integers. *)
Lemma Qfloor_between (q : Q) (z : Z) :
  inject_Z z <= q -> q < inject_Z (z + 1) -> Qfloor q = z.
Proof.
  intros Hlo Hhi.
  pose proof (Qfloor_le q) as H1. pose proof (Qlt_floor q) as H2.
  assert (A : inject_Z z < inject_Z (Qfloor q + 1))
    by (eapply Qle_lt_trans; eassumption).
  assert (B : inject_Z (Qfloor q) < inject_Z (z + 1))
    by (eapply Qle_lt_trans; eassumption).
  rewrite <- Zlt_Qlt in A, B. lia.
Qed.

Lemma round_half_even_comp (a b : Q) :
  a == b -> round_half_even a = round_half_even b.
Proof.
  intros H. unfold round_half_even. rewrite (Qfloor_comp _ _ H).
  assert (E : a - inject_Z (Qfloor b) == b - inject_Z (Qfloor b))
    by now rewrite H.
  now rewrite (Qcompare_comp _ _ E (1 # 2) (1 # 2) (Qeq_refl _)).
Qed.

(** Python [round] is odd: ties go to the even neighbour on both sides of
    zero. *)
Lemma round_half_even_opp (q : Q) :
  round_half_even (- q) = (- round_half_even q)%Z.
Proof.
  pose proof (Qfloor_le q) as Hlo. pose proof (Qlt_floor q) as Hhi.
  set (f := Qfloor q) in *.
  rewrite inject_Z_plus in Hhi. change (inject_Z 1) with 1 in Hhi.
  destruct (proj1 (Qle_lteq _ _) Hlo) as [Hlt|Heq].
  - (* q is not an integer *)
    assert (Hinj : inject_Z (- (f + 1)) == - inject_Z f - 1).
    { rewrite inject_Z_opp, inject_Z_plus. change (inject_Z 1) with 1. ring. }
    assert (Hf : Qfloor (- q) = (- (f + 1))%Z).
    { apply Qfloor_between.
      - rewrite Hinj. lra.
      - replace (- (f + 1) + 1)%Z with (- f)%Z by lia.
        rewrite inject_Z_opp. lra. }
    unfold round_half_even. rewrite Hf. fold f.
    assert (Hd : - q - inject_Z (- (f + 1)) == 1 - (q - inject_Z f)).
    { rewrite Hinj. ring. }
    rewrite (Qcompare_comp _ _ Hd (1 # 2) (1 # 2) (Qeq_refl _)).
    assert (Hev : Z.even (- (f + 1)) = negb (Z.even f)).
    { rewrite Z.even_opp, Z.even_add. simpl. now destruct (Z.even f). }
    rewrite Hev.
    destruct (Qcompare_spec (q - inject_Z f) (1 # 2)) as [E|E|E];
      destruct (Qcompare_spec (1 - (q - inject_Z f)) (1 # 2)) as [E'|E'|E'];
      try (exfalso; lra); try lia.
    destruct (Z.even f); simpl; lia.
  - (* q is an integer *)
    assert (Hf : Qfloor (- q) = (- f)%Z).
    { apply Qfloor_between.
      - rewrite inject_Z_opp. lra.
      - rewrite inject_Z_plus, inject_Z_opp. change (inject_Z 1) with 1. lra. }
    unfold round_half_even. rewrite Hf. fold f.
    assert (Hd : - q - inject_Z (- f) == 0)
      by (rewrite inject_Z_opp; lra).
    assert (Hd' : q - inject_Z f == 0) by lra.
    rewrite (Qcompare_comp _ _ Hd (1 # 2) (1 # 2) (Qeq_refl _)).
    rewrite (Qcompare_comp _ _ Hd' (1 # 2) (1 # 2) (Qeq_refl _)).
    reflexivity.
Qed.

(** X15: the first index does not see the sign of a weight: a weight and its
    negation select the same row of the table, or raise alike. *)
Theorem row_index_ignores_the_sign (nu0 : Q) (wv : pyfloat) :
  row_index nu0 (fneg wv) = row_index nu0 wv.
Proof.
  destruct (Qeq_bool nu0 0) eqn:Enu.
  - (* division by zero *)
    unfold row_index, round_entry.
    destruct wv as [q| | |]; simpl; rewrite ?Enu; simpl.
    + assert (Ez : Qeq_bool (- q) 0 = Qeq_bool q 0).
      { destruct (Qeq_bool q 0) eqn:E.
        - apply Qeq_bool_true. apply Qeq_bool_iff in E. lra.
        - apply Qeq_bool_false. apply Qeq_bool_neq in E. lra. }
      rewrite Ez. destruct (Qeq_bool q 0); simpl; [reflexivity|].
      destruct (Qle_bool (- q) 0), (Qle_bool q 0); reflexivity.
    + destruct (Qle_bool 0 nu0); reflexivity.
    + destruct (Qle_bool 0 nu0); reflexivity.
    + reflexivity.
  - apply Qeq_bool_neq in Enu.
    destruct wv as [q| | |]; simpl.
    + rewrite (proj2 (round_to_percent_entry (- q) Enu)).
      rewrite (proj2 (round_to_percent_entry q Enu)).
      assert (E : - q / nu0 * 100 == - (q / nu0 * 100)) by (field; exact Enu).
      rewrite (round_half_even_comp E), round_half_even_opp.
      now rewrite Z.abs_opp.
    + unfold row_index, round_entry. simpl.
      destruct (Qle_bool 0 nu0); reflexivity.
    + unfold row_index, round_entry. simpl.
      destruct (Qle_bool 0 nu0); reflexivity.
    + reflexivity.
Qed.

End CalibratedLookupMore.

(** ** The resistance model of the calibrated rule *)

Section ResistanceModel.

Import WeightDependentPostPre.

Local Open Scope R_scope.

Ltac solve_nonzero :=
  first
    [ assumption
    | match goal with
      | H : ?a <> ?b |- _ <> _ => intros ?E; apply H; lra
      end ].

(** X16: the two conversions between a resistance and a weight undo each
    other, for distinct nonzero [Ohm_min] and [Ohm_max]: a nonzero resistance
    comes back from its weight, and a weight comes back from its resistance
    when that resistance is defined. *)
Theorem resistance_and_weight_round_trip (Ohm_min Ohm_max : R) :
  Ohm_min <> 0 ->
  Ohm_max <> 0 ->
  Ohm_min <> Ohm_max ->
  (forall Ohm,
      Ohm <> 0 ->
      weight_to_Ohm (Ohm_to_weight Ohm Ohm_min Ohm_max) Ohm_min Ohm_max = Ohm) /\
  (forall weight,
      weight * (1 / Ohm_min - 1 / Ohm_max) + 1 / Ohm_max <> 0 ->
      Ohm_to_weight (weight_to_Ohm weight Ohm_min Ohm_max) Ohm_min Ohm_max =
        weight).
Proof.
  intros Ha Hb Hab.
  assert (Hba : Ohm_max - Ohm_min <> 0) by (intros E; apply Hab; lra).
  assert (Hd : 1 / Ohm_min - 1 / Ohm_max <> 0).
  { intros E. apply Hab.
    assert (E' : Ohm_max - Ohm_min =
                 (1 / Ohm_min - 1 / Ohm_max) * (Ohm_min * Ohm_max))
      by (field; split; assumption).
    rewrite E in E'. lra. }
  split.
  - intros Ohm HO. unfold weight_to_Ohm, Ohm_to_weight.
    replace ((1 / Ohm - 1 / Ohm_max) / (1 / Ohm_min - 1 / Ohm_max) *
             (1 / Ohm_min - 1 / Ohm_max) + 1 / Ohm_max)
      with (1 / Ohm) by (field; repeat split; solve_nonzero).
    field. exact HO.
  - intros weight Hw. unfold weight_to_Ohm, Ohm_to_weight.
    set (den := weight * (1 / Ohm_min - 1 / Ohm_max) + 1 / Ohm_max) in *.
    replace (1 / (1 / den)) with den by (field; exact Hw).
    unfold den. field. repeat split; solve_nonzero.
Qed.

Lemma resistance_and_weight_round_trip_witness :
  weight_to_Ohm (Ohm_to_weight 2500 Ohm_min_default Ohm_max_default)
    Ohm_min_default Ohm_max_default = 2500.
Proof.
  apply (proj1 (@resistance_and_weight_round_trip
                  Ohm_min_default Ohm_max_default
                  ltac:(unfold Ohm_min_default; lra)
                  ltac:(unfold Ohm_max_default; lra)
                  ltac:(unfold Ohm_min_default, Ohm_max_default; lra))).
  lra.
Defined.

Lemma Ohm_to_weight_fraction (Ohm Ohm_min Ohm_max : R) :
  Ohm <> 0 -> Ohm_min <> 0 -> Ohm_max <> 0 -> Ohm_min <> Ohm_max ->
  Ohm_to_weight Ohm Ohm_min Ohm_max =
  Ohm_min * (Ohm_max - Ohm) / (Ohm * (Ohm_max - Ohm_min)).
Proof.
  intros HO Ha Hb Hab. unfold Ohm_to_weight. field.
  repeat split; solve_nonzero.
Qed.

(** X17: for [0 < Ohm_min < Ohm_max], the weight of a resistance between
    [Ohm_min] and [Ohm_max] lies between 0 and 1: it is 1 at [Ohm_min], 0 at
    [Ohm_max]. *)
Theorem weight_of_a_resistance_in_range (Ohm Ohm_min Ohm_max : R) :
  0 < Ohm_min ->
  Ohm_min < Ohm_max ->
  Ohm_min <= Ohm <= Ohm_max ->
  0 <= Ohm_to_weight Ohm Ohm_min Ohm_max <= 1 /\
  Ohm_to_weight Ohm_min Ohm_min Ohm_max = 1 /\
  Ohm_to_weight Ohm_max Ohm_min Ohm_max = 0.
Proof.
  intros Ha Hab [Hlo Hhi].
  split; [|split].
  - rewrite Ohm_to_weight_fraction by lra.
    assert (Hden : 0 < Ohm * (Ohm_max - Ohm_min)) by nra.
    assert (Hnum : 0 <= Ohm_min * (Ohm_max - Ohm)) by nra.
    assert (Hle : Ohm_min * (Ohm_max - Ohm) <= Ohm * (Ohm_max - Ohm_min))
      by nra.
    split.
    + unfold Rdiv. apply Rmult_le_pos; [exact Hnum|].
      left. now apply Rinv_0_lt_compat.
    + apply Rmult_le_reg_r with (Ohm * (Ohm_max - Ohm_min)); [exact Hden|].
      unfold Rdiv. rewrite Rmult_assoc, Rinv_l by lra. lra.
  - rewrite Ohm_to_weight_fraction by lra. field. lra.
  - rewrite Ohm_to_weight_fraction by lra. field. lra.
Qed.

Lemma weight_of_a_resistance_in_range_witness :
  0 <= Ohm_to_weight 2500 Ohm_min_default Ohm_max_default <= 1.
Proof.
  apply (@weight_of_a_resistance_in_range
           2500 Ohm_min_default Ohm_max_default);
    unfold Ohm_min_default, Ohm_max_default; lra.
Defined.

(** X18: with the parameters of the signatures, [G_neg] is negative at every
    resistance and [G_pos] is positive at every resistance that is not
    negative. *)
Theorem conductance_changes_have_fixed_signs (resistance : R) :
  G_neg_default resistance < 0 /\
  (0 <= resistance -> 0 < G_pos_default resistance).
Proof.
  unfold G_neg_default, G_pos_default, G_neg, G_pos. split.
  - pose proof (exp_pos (- resistance / 1230)). lra.
  - intros Hr. pose proof (exp_pos (- resistance / 790)) as He.
    assert (0 <= resistance * exp (- resistance / 790))
      by (apply Rmult_le_pos; lra).
    lra.
Qed.

Lemma conductance_changes_have_fixed_signs_witness :
  0 < G_pos_default 1000.
Proof.
  apply (proj2 (conductance_changes_have_fixed_signs 1000)). lra.
Defined.

End ResistanceModel.

(** ** Reading the table *)

Section ReadingTheTable.

Import WeightDependentPostPre.

Local Open Scope nat_scope.

Lemma replace_nth_middle {A : Type} (pre post : list A) (b a : A) :
  replace_nth (pre ++ b :: post) (List.length pre) a = pre ++ a :: post.
Proof. induction pre as [|p pre IH]; simpl; [reflexivity|now rewrite IH]. Qed.

(** A line is written over the start of its row, or does not fit. *)
Lemma read_line_from (pre post line : list Q) :
  read_line (pre ++ post) (List.length pre) line =
  if List.length line <=? List.length post
  then inr (pre ++ line ++ skipn (List.length line) post)
  else inl IndexError.
Proof.
  revert pre post; induction line as [|sym line IH]; intros pre post.
  - reflexivity.
  - simpl read_line. rewrite length_app.
    destruct post as [|b post].
    + simpl. replace (List.length pre <? List.length pre + 0) with false
        by (symmetry; apply Nat.ltb_ge; lia).
      reflexivity.
    + replace (List.length pre <? List.length pre + List.length (b :: post))
        with true by (symmetry; apply Nat.ltb_lt; simpl; lia).
      rewrite replace_nth_middle.
      replace (pre ++ sym :: post) with ((pre ++ [sym]) ++ post)
        by (rewrite <- app_assoc; reflexivity).
      replace (S (List.length pre)) with (List.length (pre ++ [sym]))
        by (rewrite length_app; simpl; lia).
      rewrite IH. simpl.
      destruct (List.length line <=? List.length post); [|reflexivity].
      now rewrite <- app_assoc.
Qed.

Lemma read_lines_beyond (table lines : list (list Q)) (i : nat) :
  List.length table <= i ->
  read_lines table i lines =
  if loadable [] lines then inr table else inl IndexError.
Proof.
  revert i; induction lines as [|line lines IH]; intros i Hi.
  - reflexivity.
  - destruct line as [|sym line]; simpl.
    + apply IH. lia.
    + now rewrite (proj2 (nth_error_None table i) Hi).
Qed.

Lemma read_lines_nonblank (table lines : list (list Q)) (i : nat) (sym : Q)
    (line : list Q) :
  forall row,
    nth_error table i = Some row ->
    read_lines table i ((sym :: line) :: lines) =
    ebind (read_line row 0 (sym :: line))
      (fun row' => read_lines (replace_nth table i row') (S i) lines).
Proof.
  intros row H.
  change (read_lines table i ((sym :: line) :: lines))
    with (match nth_error table i with
          | None => inl IndexError
          | Some row =>
              ebind (read_line row 0 (sym :: line))
                (fun row' => read_lines (replace_nth table i row') (S i) lines)
          end).
  now rewrite H.
Qed.

(** The lines are written over the rows from row [i] on, or one does not
    fit. *)
Lemma read_lines_from (pre rows lines : list (list Q)) :
  read_lines (pre ++ rows) (List.length pre) lines =
  if loadable rows lines
  then inr (pre ++ overlay rows lines)
  else inl IndexError.
Proof.
  revert pre rows; induction lines as [|line lines IH]; intros pre rows.
  - simpl. now destruct rows.
  - destruct rows as [|row rows].
    + simpl overlay. rewrite !app_nil_r. apply read_lines_beyond. lia.
    + assert (Hnext : forall row',
                 read_lines (pre ++ row' :: rows) (S (List.length pre)) lines =
                 if loadable rows lines
                 then inr (pre ++ row' :: overlay rows lines)
                 else inl IndexError).
      { intros row'.
        replace (pre ++ row' :: rows) with ((pre ++ [row']) ++ rows)
          by (rewrite <- app_assoc; reflexivity).
        replace (S (List.length pre)) with (List.length (pre ++ [row']))
          by (rewrite length_app; simpl; lia).
        rewrite IH. destruct (loadable rows lines); [|reflexivity].
        now rewrite <- app_assoc. }
      destruct line as [|sym line].
      * simpl read_lines. simpl loadable. simpl overlay. apply Hnext.
      * assert (Hn : nth_error (pre ++ row :: rows) (List.length pre) =
                     Some row).
        { rewrite nth_error_app2 by lia. now rewrite Nat.sub_diag. }
        rewrite (read_lines_nonblank _ lines _ sym line Hn).
        assert (Hrl : read_line row 0 (sym :: line) =
                      if List.length (sym :: line) <=? List.length row
                      then inr ((sym :: line) ++
                                skipn (List.length (sym :: line)) row)
                      else inl IndexError)
          by exact (read_line_from [] row (sym :: line)).
        rewrite Hrl. clear Hrl.
        change (loadable (row :: rows) ((sym :: line) :: lines))
          with ((List.length (sym :: line) <=? List.length row)
                && loadable rows lines)%bool.
        change (overlay (row :: rows) ((sym :: line) :: lines))
          with (((sym :: line) ++ skipn (List.length (sym :: line)) row)
                :: overlay rows lines).
        destruct (List.length (sym :: line) <=? List.length row);
          [|reflexivity].
        cbv beta iota delta [ebind]. rewrite replace_nth_middle.
        rewrite andb_true_l. apply Hnext.
Qed.

Lemma overlay_shape (cols : nat) (rows lines : list (list Q)) :
  loadable rows lines = true ->
  Forall (fun row => List.length row = cols) rows ->
  List.length (overlay rows lines) = List.length rows /\
  Forall (fun row => List.length row = cols) (overlay rows lines).
Proof.
  revert lines; induction rows as [|row rows IH]; intros lines Hl Hrows.
  - simpl. now destruct lines.
  - destruct lines as [|line lines]; [now split|].
    inversion Hrows as [|? ? Hrow Hrest]; subst.
    assert (Hfit : List.length line <= List.length row /\
                   loadable rows lines = true).
    { destruct line as [|sym line].
      - split; [simpl; lia|exact Hl].
      - change (loadable (row :: rows) ((sym :: line) :: lines))
          with ((List.length (sym :: line) <=? List.length row)
                && loadable rows lines)%bool in Hl.
        apply andb_true_iff in Hl. destruct Hl as [Hle Hl].
        apply Nat.leb_le in Hle. split; [exact Hle|exact Hl]. }
    destruct Hfit as [Hle Hl'].
    destruct (IH lines Hl' Hrest) as [Hlen Hall].
    simpl. split; [now rewrite Hlen|].
    constructor; [|exact Hall].
    rewrite length_app, length_skipn. lia.
Qed.

Lemma overlay_entry (rows lines : list (list Q)) (j k : nat) :
  j < List.length rows ->
  nth k (nth j (overlay rows lines) []) 0%Q =
  if k <? List.length (nth j lines [])
  then nth k (nth j lines []) 0%Q
  else nth k (nth j rows []) 0%Q.
Proof.
  revert lines j; induction rows as [|row rows IH]; intros lines j Hj.
  - simpl in Hj. lia.
  - destruct lines as [|line lines].
    + simpl overlay. destruct j; simpl; now destruct k.
    + destruct j as [|j]; simpl.
      * destruct (k <? List.length line) eqn:E.
        -- apply Nat.ltb_lt in E. now rewrite app_nth1.
        -- apply Nat.ltb_ge in E. rewrite app_nth2 by lia.
           rewrite nth_skipn. f_equal. lia.
      * apply IH. simpl in Hj. lia.
Qed.

Lemma loadable_fits (cols : nat) (rows lines : list (list Q)) :
  Forall (fun row => List.length row = cols) rows ->
  loadable rows lines = true <-> fits cols (List.length rows) lines.
Proof.
  unfold fits. revert rows; induction lines as [|line lines IH];
    intros rows Hrows.
  - rewrite firstn_nil, skipn_nil. simpl. intuition.
  - destruct rows as [|row rows].
    + specialize (IH [] Hrows). simpl in IH. simpl firstn. simpl skipn.
      destruct line as [|sym line]; simpl loadable.
      * rewrite IH. split.
        -- intros [_ H]. split; constructor; auto.
        -- intros [_ H]. inversion H; subst. split; auto.
      * split; [discriminate|].
        intros [_ H]. inversion H; subst. discriminate.
    + inversion Hrows as [|? ? Hrow Hrest]; subst.
      specialize (IH rows Hrest).
      simpl List.length. simpl firstn. simpl skipn.
      assert (Hl : loadable (row :: rows) (line :: lines) = true <->
                   List.length line <= List.length row /\
                   loadable rows lines = true).
      { destruct line as [|sym line].
        - simpl. intuition lia.
        - change (loadable (row :: rows) ((sym :: line) :: lines))
            with ((List.length (sym :: line) <=? List.length row)
                  && loadable rows lines)%bool.
          rewrite andb_true_iff, Nat.leb_le. reflexivity. }
      rewrite Hl, IH. split.
      * intros [Hle [H1 H2]]. split; [constructor|]; auto.
      * intros [H1 H2]. inversion H1; subst. auto.
Qed.

Lemma read_STDP_base_cases (lines : list (list Q)) :
  read_STDP_base lines =
  if loadable zeros_101_120 lines
  then inr (overlay zeros_101_120 lines)
  else inl IndexError.
Proof.
  unfold read_STDP_base.
  change (read_lines zeros_101_120 0 lines)
    with (read_lines ([] ++ zeros_101_120) (List.length (@nil (list Q))) lines).
  now rewrite (read_lines_from [] zeros_101_120 lines).
Qed.

(** X19: the constructor reads a file into the table exactly when none of
    its first 101 lines has more than 120 numbers and every line past the
    101st is blank, and it raises an index error otherwise.  What it reads is
    a table of 101 rows of 120 entries, whatever the file: entry [k] of row
    [i] is number [k] of line [i], and 0 where the file has no such
    number. *)
Theorem read_STDP_base_fills_a_101_by_120_table (lines : list (list Q)) :
  match read_STDP_base lines with
  | inr STDP_base =>
      fits 120 101 lines /\
      table_shape STDP_base /\
      (forall i k, i < 101 ->
                   nth k (nth i STDP_base []) 0%Q =
                   nth k (nth i lines []) 0%Q)
  | inl e => ~ fits 120 101 lines /\ e = IndexError
  end.
Proof.
  destruct zeros_101_120_shape as [Hrows Hcols].
  pose proof (loadable_fits lines Hcols) as Hfit. rewrite Hrows in Hfit.
  rewrite read_STDP_base_cases.
  destruct (loadable zeros_101_120 lines) eqn:E.
  - split; [now apply Hfit|].
    destruct (overlay_shape lines E Hcols) as [Hlen Hall].
    split; [split; [now rewrite Hlen|exact Hall]|].
    intros i k Hi.
    rewrite overlay_entry by (rewrite Hrows; exact Hi).
    destruct (k <? List.length (nth i lines [])) eqn:Ek; [reflexivity|].
    apply Nat.ltb_ge in Ek. rewrite (nth_overflow _ _ Ek).
    unfold zeros_101_120.
    rewrite (nth_repeat_lt (repeat 0%Q 120) [] Hi).
    destruct (Nat.lt_ge_cases k 120) as [L|G].
    + now rewrite (nth_repeat_lt 0%Q 0%Q L).
    + apply nth_overflow. now rewrite repeat_length.
  - split; [|reflexivity]. intros H. apply Hfit in H. discriminate.
Qed.

End ReadingTheTable.

(** ** What the constructors accept *)

Section Construction.

Local Open Scope R_scope.

Variable wr : wiring.
Variable nu : nu_argument.
Variable reduction : option (tensor3 -> matrix).
Variable weight_decay : R.
Variable kw : kwargs.

Lemma bind_update_returns (r : rule) :
  returns (LearningRule.bind_update wr r) <-> supported wr.
Proof.
  unfold returns, supported, LearningRule.bind_update.
  destruct (class_of wr); split.
  all: try (intros _; discriminate).
  all: try (intros _; eexists; reflexivity).
  - intros [a H]; discriminate H.
  - intros H; now elim H.
Qed.

Lemma bind_update_method (r r' : rule) (m : update_method) :
  LearningRule.bind_update wr r = inr (r', m) ->
  r' = r /\
  (m = conv2d_connection_update_method <->
   class_of wr = class_Conv2dConnection) /\
  (m = connection_update_method <->
   class_of wr = class_Connection \/ class_of wr = class_LocalConnection).
Proof.
  unfold LearningRule.bind_update.
  destruct (class_of wr); intros H; try discriminate H;
    injection H as <- <-; (split; [reflexivity|]);
    split;
    (split; intros E;
     first [discriminate E | destruct E as [E|E]; discriminate E | auto]).
Qed.

(** X20: an Rmax rule is constructed exactly on a connection of class
    Connection or LocalConnection whose source records traces additively and
    whose target is of class SRM0Nodes; on a convolutional connection the
    constructor never returns.  It binds the dense update. *)
Theorem rmax_is_constructed_on_dense_connections_only :
  (returns (Rmax.init wr nu reduction weight_decay kw) <->
   (class_of wr = class_Connection \/ class_of wr = class_LocalConnection) /\
   traces (source_nodes wr) = true /\
   traces_additive (source_nodes wr) = true /\
   isinstance_SRM0Nodes (target_nodes wr) = true) /\
  (forall r m,
      Rmax.init wr nu reduction weight_decay kw = inr (r, m) ->
      m = connection_update_method /\ cls r = cls_Rmax) /\
  (class_of wr = class_Conv2dConnection ->
   ~ returns (Rmax.init wr nu reduction weight_decay kw)).
Proof.
  unfold returns, Rmax.init. split; [split|split].
  - intros [a H].
    destruct (traces (source_nodes wr)),
      (traces_additive (source_nodes wr)),
      (isinstance_SRM0Nodes (target_nodes wr)), (class_of wr);
      simpl in H; try discriminate H; auto.
  - intros (Hc & -> & -> & ->). simpl.
    destruct Hc as [-> | ->]; eexists; reflexivity.
  - intros r m H.
    destruct (traces (source_nodes wr)),
      (traces_additive (source_nodes wr)),
      (isinstance_SRM0Nodes (target_nodes wr)), (class_of wr);
      simpl in H; try discriminate H;
      injection H as <- <-; split; reflexivity.
  - intros -> [a H].
    destruct (traces (source_nodes wr)),
      (traces_additive (source_nodes wr)),
      (isinstance_SRM0Nodes (target_nodes wr));
      simpl in H; discriminate H.
Qed.

Lemma two_factor_returns (r : rule) (message : string) :
  returns (if traces (source_nodes wr) && traces (target_nodes wr)
           then LearningRule.bind_update wr r
           else inl (AssertionError message)) <->
  traces (source_nodes wr) = true /\ traces (target_nodes wr) = true /\
  supported wr.
Proof.
  destruct (traces (source_nodes wr)), (traces (target_nodes wr)); simpl;
    rewrite ?bind_update_returns; split.
  all: try (intros (H1 & H2 & H3); first [discriminate|exact H3]).
  all: try (intros [a H]; discriminate H).
  intros H. auto.
Qed.

(** X21: PostPre and Hebbian are constructed exactly when both populations
    record traces and the connection is of class Connection, LocalConnection
    or Conv2dConnection; MSTDP and MSTDPET ask for the class of the
    connection only, not for traces.  All four bind the convolutional update
    exactly on a Conv2dConnection and the dense update on the two other
    classes. *)
Theorem trace_and_connection_requirements :
  (returns (PostPre.init wr nu reduction weight_decay kw) <->
   traces (source_nodes wr) = true /\ traces (target_nodes wr) = true /\
   supported wr) /\
  (returns (Hebbian.init wr nu reduction weight_decay kw) <->
   traces (source_nodes wr) = true /\ traces (target_nodes wr) = true /\
   supported wr) /\
  (returns (MSTDP.init wr nu reduction weight_decay kw) <-> supported wr) /\
  (returns (MSTDPET.init wr nu reduction weight_decay kw) <-> supported wr) /\
  (forall r m,
      PostPre.init wr nu reduction weight_decay kw = inr (r, m) \/
      Hebbian.init wr nu reduction weight_decay kw = inr (r, m) \/
      MSTDP.init wr nu reduction weight_decay kw = inr (r, m) \/
      MSTDPET.init wr nu reduction weight_decay kw = inr (r, m) ->
      (m = conv2d_connection_update_method <->
       class_of wr = class_Conv2dConnection) /\
      (m = connection_update_method <->
       class_of wr = class_Connection \/ class_of wr = class_LocalConnection)).
Proof.
  split; [apply two_factor_returns|].
  split; [apply two_factor_returns|].
  split; [apply bind_update_returns|].
  split; [apply bind_update_returns|].
  intros r m H.
  assert (Hb : exists r0, LearningRule.bind_update wr r0 = inr (r, m)).
  { unfold PostPre.init, Hebbian.init, MSTDP.init, MSTDPET.init in H.
    destruct (traces (source_nodes wr) && traces (target_nodes wr));
      destruct H as [H|[H|[H|H]]]; try discriminate H; eauto. }
  destruct Hb as (r0 & Hb).
  now destruct (bind_update_method _ Hb) as (_ & H1 & H2).
Qed.

Variables post_spike_weight_decay tc_trace tc_trace_neg : R.
Variable file : option (list (list Q)).

(** X22: the calibrated rule is constructed exactly when the file exists and
    fits the table, the source records traces, both bounds of the connection
    are finite and the class of the connection is known; nothing is asked of
    the target.  The table of a constructed rule has 101 rows of 120
    entries. *)
Theorem calibrated_rule_construction :
  (returns (WeightDependentPostPre.init wr nu reduction weight_decay
              post_spike_weight_decay tc_trace tc_trace_neg file kw) <->
   (exists lines,
       file = Some lines /\ WeightDependentPostPre.fits 120 101 lines) /\
   traces (source_nodes wr) = true /\
   wiring_wmin wr <> NegInf /\
   wiring_wmax wr <> PosInf /\
   supported wr) /\
  (forall cr m,
      WeightDependentPostPre.init wr nu reduction weight_decay
        post_spike_weight_decay tc_trace tc_trace_neg file kw = inr (cr, m) ->
      WeightDependentPostPre.table_shape
        (WeightDependentPostPre.STDP_base_of cr) /\
      cls (WeightDependentPostPre.base cr) = cls_WeightDependentPostPre).
Proof.
  destruct zeros_101_120_shape as [Hrows Hcols].
  unfold returns, WeightDependentPostPre.init.
  destruct file as [lines|].
  2:{ split.
      - split; [intros [a H]; discriminate H|].
        intros ((lines & H & _) & _). discriminate H.
      - intros cr m H. discriminate H. }
  pose proof (loadable_fits lines Hcols) as Hfit. rewrite Hrows in Hfit.
  rewrite read_STDP_base_cases.
  destruct (WeightDependentPostPre.loadable
              WeightDependentPostPre.zeros_101_120 lines) eqn:E.
  2:{ split.
      - split; [intros [a H]; discriminate H|].
        intros ((lines' & H & Hf) & _). injection H as <-.
        apply Hfit in Hf. discriminate Hf.
      - intros cr m H. discriminate H. }
  assert (Hf : WeightDependentPostPre.fits 120 101 lines)
    by now apply Hfit.
  destruct (overlay_shape lines E Hcols) as [Hlen Hall].
  rewrite Hrows in Hlen.
  remember (WeightDependentPostPre.overlay
              WeightDependentPostPre.zeros_101_120 lines) as STDP_base
    eqn:Etable.
  clear Etable Hrows Hcols Hfit E.
  split.
  - split.
    + intros [a H].
      destruct (traces (source_nodes wr)); simpl in H; [|discriminate H].
      destruct (wiring_wmin wr), (wiring_wmax wr); simpl in H;
        try discriminate H.
      destruct (LearningRule.bind_update wr _) as [e|[r' m]] eqn:Eb;
        [discriminate H|].
      repeat split; try discriminate; eauto.
      eapply bind_update_returns. eexists; exact Eb.
    + intros (_ & -> & Hmin & Hmax & Hs). simpl.
      destruct (wiring_wmin wr); [now elim Hmin|].
      destruct (wiring_wmax wr); [now elim Hmax|]. simpl.
      apply (bind_update_returns
               (LearningRule.init cls_WeightDependentPostPre nu reduction
                  weight_decay kw)) in Hs.
      destruct Hs as [[r' m] Hs]. rewrite Hs. eexists; reflexivity.
  - intros cr m H.
    destruct (traces (source_nodes wr)); simpl in H; [|discriminate H].
    destruct (wiring_wmin wr), (wiring_wmax wr); simpl in H;
      try discriminate H.
    destruct (LearningRule.bind_update wr _) as [e|[r' m']] eqn:Eb;
      [discriminate H|].
    injection H as <- <-. simpl.
    destruct (bind_update_method _ Eb) as (-> & _).
    split; [split; [exact Hlen|exact Hall]|reflexivity].
Qed.

End Construction.
